(** * xwatermark: the watermark-image pipeline of [main.go]

    A shallow embedding of [extractUsername], [createWatermarkImage] and
    [rotateAndCrop], and the properties of them that the specification
    states.

    Conventions.
    - Go's [int] is taken at 64 bits; every [int] operation of the source is
      written with its wrap-around ([wrap]).
    - [float64] is an interface ([Float64Ops]): the source is transcribed
      over it, operation by operation, in the order Go evaluates them.  What
      holds for every implementation of the interface holds for IEEE 754
      binary64 in particular, also where the compiler fuses a multiplication
      with an addition (the fused result is one more implementation of the
      same expression).  Facts that need arithmetic are proved from
      [Float64Exact], a short list of exactness laws of binary64; where they
      apply every intermediate result is exact, fused or not.
    - [image.RGBA], [image.Rect], [strings.Index], ... belong to Go's
      standard library; they are modelled after their documentation, one
      entry of [Pix] per pixel instead of four bytes.
    - Glyph rendering ([truetype.Parse], [freetype.Context.DrawString]) is an
      opaque capability ([GlyphRenderer]); every call is logged. *)

From Stdlib Require Import ZArith QArith Qround Qabs String Ascii List Lia.
From Stdlib Require Floats Uint63.
From stdpp Require Import base tactics list.
Import ListNotations.

Local Open Scope Z_scope.

(** ** Go's [int] *)

Module GoInt.

Definition bits : Z := 64.
Definition min_int : Z := - 2 ^ 63.
Definition max_int : Z := 2 ^ 63 - 1.

(** Two's complement wrap-around of a mathematical integer. *)
Definition wrap (n : Z) : Z := (n + 2 ^ 63) mod 2 ^ 64 - 2 ^ 63.

Definition add (a b : Z) : Z := wrap (a + b).
Definition mul (a b : Z) : Z := wrap (a * b).
Definition neg (a : Z) : Z := wrap (- a).
(** [a / b] for a non-zero constant [b]: the quotient truncated toward zero. *)
Definition quo (a b : Z) : Z := wrap (Z.quot a b).

(** [fixed.Int26_6] is an [int32]. *)
Definition wrap32 (n : Z) : Z := (n + 2 ^ 31) mod 2 ^ 32 - 2 ^ 31.

Definition in_range (n : Z) : Prop := min_int <= n <= max_int.

End GoInt.

(** ** Go strings, and the three functions of [strings] that the source calls *)

Module GoStrings.

Definition len (s : string) : Z := Z.of_nat (String.length s).

(** [strings.Index(s, substr)]: the index of the first instance of [substr]
    in [s], or -1. *)
Fixpoint Index (s substr : string) : Z :=
  if String.prefix substr s then 0
  else match s with
       | EmptyString => -1
       | String _ s' => let r := Index s' substr in if r <? 0 then -1 else r + 1
       end.

(** [strings.LastIndex(s, substr)]: the index of the last instance, or -1. *)
Fixpoint LastIndex (s substr : string) : Z :=
  match s with
  | EmptyString => if String.prefix substr s then 0 else -1
  | String _ s' =>
      let r := LastIndex s' substr in
      if 0 <=? r then r + 1
      else if String.prefix substr s then 0 else -1
  end.

Fixpoint drop (n : nat) (s : string) : string :=
  match n, s with
  | O, _ => s
  | S n', String _ s' => drop n' s'
  | S _, EmptyString => EmptyString
  end.

Fixpoint take (n : nat) (s : string) : string :=
  match n, s with
  | O, _ => EmptyString
  | S n', String c s' => String c (take n' s')
  | S _, EmptyString => EmptyString
  end.

(** The slice expressions [s[i:]] and [s[:i]]; the source only takes them
    at indices within [0, len s]. *)
Definition slice_from (s : string) (i : Z) : string := drop (Z.to_nat i) s.
Definition slice_to (s : string) (i : Z) : string := take (Z.to_nat i) s.

(** [strings.Repeat(s, count)] panics on a negative count. *)
Fixpoint repeat_nat (s : string) (n : nat) : string :=
  match n with
  | O => EmptyString
  | S n' => String.append s (repeat_nat s n')
  end.

Definition Repeat (s : string) (count : Z) : option string :=
  if count <? 0 then None else Some (repeat_nat s (Z.to_nat count)).

(** [c] occurs nowhere in [s]. *)
Fixpoint absent (c : ascii) (s : string) : Prop :=
  match s with
  | EmptyString => True
  | String c' s' => c' <> c /\ absent c s'
  end.

End GoStrings.

(** ** [extractUsername] *)

Definition backslash : string := String (ascii_of_nat 92) EmptyString.
Definition at_sign : string := String (ascii_of_nat 64) EmptyString.

Definition extractUsername (fullUsername : string) : string :=
  let i := GoStrings.LastIndex fullUsername backslash in
  if 0 <=? i then GoStrings.slice_from fullUsername (i + 1)
  else
    let i := GoStrings.Index fullUsername at_sign in
    if 0 <=? i then GoStrings.slice_to fullUsername i
    else fullUsername.

(** ** [float64]

    The operations of [float64] that the source uses.  [f_le] and [f_lt]
    are Go's [<=] and [<] (false on NaN; [a >= b] is [f_le b a]);
    [f_of_int] is the conversion [float64(n)] and [f_to_int] the
    conversion [int(f)], which discards the fraction. *)

Class Float64Ops (F : Type) := {
  f_of_int : Z -> F;
  f_to_int : F -> Z;
  f_add : F -> F -> F;
  f_sub : F -> F -> F;
  f_mul : F -> F -> F;
  f_div : F -> F -> F;
  f_neg : F -> F;
  f_le : F -> F -> bool;
  f_lt : F -> F -> bool;
  math_Sqrt : F -> F;
  math_Cos : F -> F;
  math_Sin : F -> F;
  math_Pi : F
}.

Declare Scope f64_scope.
Delimit Scope f64_scope with f64.
Infix "+" := f_add : f64_scope.
Infix "-" := f_sub : f64_scope.
Infix "*" := f_mul : f64_scope.
Infix "/" := f_div : f64_scope.
Notation "- x" := (f_neg x) : f64_scope.
Infix "<=?" := f_le : f64_scope.
Infix "<?" := f_lt : f64_scope.

(** A rational [q] is a half-integer of magnitude at most 2^52: such a
    number is a binary64 value. *)
Definition half_int (q : Q) : Prop :=
  exists k : Z, Z.abs k <= 2 ^ 53 /\ (q == k # 2)%Q.

(** [int(f)] on an exact value: toward zero. *)
Definition Qtrunc (q : Q) : Z :=
  if Qle_bool 0 q then Qfloor q else Qceiling q.

(** Exactness laws of IEEE 754 binary64 (round to nearest).  [repr a q]
    reads "[a] is finite and its value is [q]" ([-0] has value 0).
    - an operation whose exact result is a binary64 value returns it;
      half-integers up to 2^52 are such values;
    - comparisons and [int(f)] go by the value;
    - [math.Cos(±0) = 1] and [math.Sin(±0) = ±0];
    - for an integer [0 <= n < 2^52], [math.Sqrt] returns the double nearest
      to the root, which lies in [[isqrt n, isqrt n + 1)]: the root of a
      non-square is below [isqrt n + 1] by more than [1/(2 (isqrt n + 1))],
      at least 2^-27, the spacing of doubles below 2^26. *)
Class Float64Exact (F : Type) `{Float64Ops F} := {
  repr : F -> Q -> Prop;
  repr_proper a p q : repr a p -> (p == q)%Q -> repr a q;
  repr_of_int n : Z.abs n <= 2 ^ 53 -> repr (f_of_int n) (inject_Z n);
  repr_add a b p q :
    repr a p -> repr b q -> half_int (p + q) -> repr (a + b)%f64 (p + q)%Q;
  repr_sub a b p q :
    repr a p -> repr b q -> half_int (p - q) -> repr (a - b)%f64 (p - q)%Q;
  repr_mul a b p q :
    repr a p -> repr b q -> half_int (p * q) -> repr (a * b)%f64 (p * q)%Q;
  repr_div a b p q :
    repr a p -> repr b q -> ~ (q == 0)%Q -> half_int (p / q) ->
    repr (a / b)%f64 (p / q)%Q;
  repr_neg a p : repr a p -> repr (- a)%f64 (- p)%Q;
  repr_le a b p q : repr a p -> repr b q -> (a <=? b)%f64 = Qle_bool p q;
  repr_lt a b p q :
    repr a p -> repr b q -> (a <? b)%f64 = negb (Qle_bool q p);
  repr_to_int a p :
    repr a p -> (Qabs p <= inject_Z (2 ^ 62))%Q -> f_to_int a = Qtrunc p;
  repr_Pi : exists q, repr math_Pi q;
  repr_Cos_0 a : repr a 0%Q -> repr (math_Cos a) 1%Q;
  repr_Sin_0 a : repr a 0%Q -> repr (math_Sin a) 0%Q;
  to_int_Sqrt a n :
    repr a (inject_Z n) -> 0 <= n < 2 ^ 52 ->
    f_to_int (math_Sqrt a) = Z.sqrt n
}.

(** ** [image]: points, rectangles, colours and [image.RGBA] *)

Record Point := mkPoint { X : Z; Y : Z }.
Record Rectangle := mkRectangle { Min : Point; Max : Point }.

(** [image.Rect(x0, y0, x1, y1)]: swaps coordinates where needed, so that the
    result is well formed. *)
Definition image_Rect (x0 y0 x1 y1 : Z) : Rectangle :=
  let '(x0, x1) := if x1 <? x0 then (x1, x0) else (x0, x1) in
  let '(y0, y1) := if y1 <? y0 then (y1, y0) else (y0, y1) in
  mkRectangle (mkPoint x0 y0) (mkPoint x1 y1).

Definition Dx (r : Rectangle) : Z := X (Max r) - X (Min r).
Definition Dy (r : Rectangle) : Z := Y (Max r) - Y (Min r).

(** [Point{x, y}.In(r)] *)
Definition Point_In (x y : Z) (r : Rectangle) : bool :=
  (X (Min r) <=? x) && (x <? X (Max r)) && (Y (Min r) <=? y) && (y <? Y (Max r)).

(** [color.RGBA]: four [uint8] channels. *)
Record color_RGBA := mkRGBA { R : Z; G : Z; B : Z; A : Z }.

(** [image.Transparent] and [image.Black], as [RGBAModel] converts them. *)
Definition color_Transparent : color_RGBA := mkRGBA 0 0 0 0.
Definition color_Black : color_RGBA := mkRGBA 0 0 0 255.

(** [image.RGBA]: [Pix] holds the pixels row by row, [Stride] apart. *)
Record RGBA := mkImage { Pix : list color_RGBA; Stride : Z; Rect : Rectangle }.

(** [image.NewRGBA(r)]: every channel of every pixel is zero. *)
Definition NewRGBA (r : Rectangle) : RGBA :=
  mkImage (replicate (Z.to_nat (Dx r * Dy r)) (mkRGBA 0 0 0 0)) (Dx r) r.

Definition Bounds (p : RGBA) : Rectangle := Rect p.

Definition PixOffset (p : RGBA) (x y : Z) : Z :=
  (y - Y (Min (Rect p))) * Stride p + (x - X (Min (Rect p))).

(** [p.At(x, y)]: the zero colour outside [p.Rect]. *)
Definition RGBA_At (p : RGBA) (x y : Z) : color_RGBA :=
  if Point_In x y (Rect p)
  then default (mkRGBA 0 0 0 0) (Pix p !! Z.to_nat (PixOffset p x y))
  else mkRGBA 0 0 0 0.

(** [p.Set(x, y, c)]: nothing outside [p.Rect]. *)
Definition RGBA_Set (p : RGBA) (x y : Z) (c : color_RGBA) : RGBA :=
  if Point_In x y (Rect p)
  then mkImage (<[Z.to_nat (PixOffset p x y) := c]> (Pix p)) (Stride p) (Rect p)
  else p.

(** ** Control: outcomes and the two shapes of [for] loop in the source *)

Inductive outcome (T : Type) : Type :=
| Ok (v : T)        (* ran to the end *)
| Fatal             (* [log.Fatal]: the process exits *)
| Panic             (* a run-time panic *)
| OutOfFuel.        (* a loop was still running when the fuel ran out *)
Arguments Ok {T} v.
Arguments Fatal {T}.
Arguments Panic {T}.
Arguments OutOfFuel {T}.

Definition bind {T U} (o : outcome T) (k : T -> outcome U) : outcome U :=
  match o with
  | Ok v => k v
  | Fatal => Fatal
  | Panic => Panic
  | OutOfFuel => OutOfFuel
  end.

(** [for i := lo; i < hi; i++ { body }] *)
Definition for_range {S : Type} (lo hi : Z) (body : Z -> S -> S) (s : S) : S :=
  fold_left (fun s i => body i s) (seqZ lo (hi - lo)) s.

(** [for i := i0; i < hi; i += step { body }], for any [step]: at most
    [fuel] iterations. *)
Fixpoint for_step {S : Type} (fuel : nat) (i hi step : Z)
    (body : Z -> S -> outcome S) (s : S) : outcome S :=
  if i <? hi then
    match fuel with
    | O => OutOfFuel
    | Datatypes.S fuel' =>
        bind (body i s) (for_step fuel' (GoInt.add i step) hi step body)
    end
  else Ok s.

(** ** The glyph-rendering capability

    [freetype.Context] as the source sets it up (its destination is the
    canvas, passed along), [truetype.Parse] and [Context.DrawString].  *)

Record Context (F Font : Type) := mkContext {
  c_dpi : F;
  c_font : Font;
  c_fontSize : F;
  c_clip : Rectangle;
  c_src : color_RGBA
}.
Arguments mkContext {F Font}.
Arguments c_src {F Font}.
Arguments c_clip {F Font}.

Class GlyphRenderer (F : Type) := {
  Font : Type;
  truetype_Parse : list Z -> option Font;
  DrawString : Context F Font -> RGBA -> string -> Point -> RGBA
}.

(** [freetype.Pt(x, y)]: the point in 26.6 fixed point, [x << 6] as an
    [int32]. *)
Definition freetype_Pt (x y : Z) : Point :=
  mkPoint (GoInt.wrap32 (GoInt.mul x 64)) (GoInt.wrap32 (GoInt.mul y 64)).

(** One logged call of [DrawString]: the text and the anchor. *)
Definition DrawLog : Type := list (string * Point).

(** ** [watermarkConfig] *)

Record WatermarkConfig (F : Type) := mkConfig {
  angle : F;
  imageRotation : F;
  fontSize : F;
  spaceCount : Z;
  color : Z;
  alpha : Z;
  spacingX : Z;
  spacingY : Z;
  fontData : list Z
}.
Arguments mkConfig {F}.
Arguments angle {F}.
Arguments imageRotation {F}.
Arguments fontSize {F}.
Arguments spaceCount {F}.
Arguments spacingX {F}.
Arguments spacingY {F}.
Arguments fontData {F}.

Section Pipeline.

Context {F : Type} `{FO : Float64Ops F} `{GR : GlyphRenderer F}.

Local Notation "0" := (f_of_int 0) : f64_scope.
Local Notation "2" := (f_of_int 2) : f64_scope.
Local Notation "180" := (f_of_int 180) : f64_scope.

(** The initial value of the global [watermarkConfig]; [ttf] stands for
    [goregular.TTF]. *)
Definition watermarkConfig (ttf : list Z) : WatermarkConfig F :=
  mkConfig (f_of_int 0) (f_of_int 320) (f_of_int 20) 5 16777215 7 250 125 ttf.

(** *** [rotateAndCrop] *)

Definition rotateAndCrop (img : RGBA) (angle : F) (targetWidth targetHeight : Z)
    : RGBA :=
  let rad := (angle * math_Pi / 180)%f64 in
  let bounds := Bounds img in
  let w := f_of_int (Dx bounds) in
  let h := f_of_int (Dy bounds) in
  let dst := NewRGBA (image_Rect 0 0 targetWidth targetHeight) in
  let cx := (w / 2)%f64 in
  let cy := (h / 2)%f64 in
  let newCX := (f_of_int targetWidth / 2)%f64 in
  let newCY := (f_of_int targetHeight / 2)%f64 in
  for_range 0 targetHeight (fun y dst =>
    for_range 0 targetWidth (fun x dst =>
      let dx := (f_of_int x - newCX)%f64 in
      let dy := (f_of_int y - newCY)%f64 in
      let oldX := (dx * math_Cos (- rad) - dy * math_Sin (- rad) + cx)%f64 in
      let oldY := (dx * math_Sin (- rad) + dy * math_Cos (- rad) + cy)%f64 in
      if (0 <=? oldX)%f64 && (oldX <? w)%f64 && (0 <=? oldY)%f64 && (oldY <? h)%f64
      then RGBA_Set dst x y (RGBA_At img (f_to_int oldX) (f_to_int oldY))
      else dst) dst) dst.

(** *** [createWatermarkImage], phase by phase *)

(** [canvasSize := int(math.Sqrt(float64(width*width+height*height))) * 5 / 4] *)
Definition canvasSizeOf (width height : Z) : Z :=
  GoInt.quo
    (GoInt.mul
       (f_to_int
          (math_Sqrt
             (f_of_int
                (GoInt.add (GoInt.mul width width) (GoInt.mul height height)))))
       5)
    4.

(** The canvas and the loop that paints it transparent. *)
Definition blankCanvas (canvasSize : Z) : RGBA :=
  let img := NewRGBA (image_Rect 0 0 canvasSize canvasSize) in
  let bounds := Bounds img in
  for_range (Y (Min bounds)) (Y (Max bounds)) (fun y img =>
    for_range (X (Min bounds)) (X (Max bounds)) (fun x img =>
      RGBA_Set img x y color_Transparent) img) img.

(** The tile pitch: [spacingX := watermarkConfig.spacingX * 4 / 3], and the
    same for [spacingY]. *)
Definition tilePitch (cfg : WatermarkConfig F) : Z * Z :=
  (GoInt.quo (GoInt.mul (spacingX cfg) 4) 3,
   GoInt.quo (GoInt.mul (spacingY cfg) 4) 3).

(** The range of the anchors: [startX], [endX] (and [startY], [endY], which
    the source computes by the same expressions). *)
Definition anchorStart (canvasSize : Z) : Z := GoInt.quo (GoInt.neg canvasSize) 2.
Definition anchorEnd (canvasSize : Z) : Z := GoInt.quo (GoInt.mul canvasSize 3) 2.

(** The anchor [(x, y)] turned by [angle] and moved to the canvas centre. *)
Definition rotated (canvasSize : Z) (angle : F) (x y : Z) : F * F :=
  let rotX := (f_of_int x * math_Cos angle - f_of_int y * math_Sin angle)%f64 in
  let rotY := (f_of_int x * math_Sin angle + f_of_int y * math_Cos angle)%f64 in
  let rotX := (rotX + f_of_int canvasSize / 2)%f64 in
  let rotY := (rotY + f_of_int canvasSize / 2)%f64 in
  (rotX, rotY).

(** The guard of the draw. *)
Definition onCanvas (canvasSize : Z) (p : F * F) : bool :=
  let '(rotX, rotY) := p in
  (0 <=? rotX)%f64 && (rotX <? f_of_int canvasSize)%f64
  && (0 <=? rotY)%f64 && (rotY <? f_of_int canvasSize)%f64.

(** The body of the inner loop: the state is the canvas and the log of the
    draw calls made so far. *)
Definition drawTile (c : Context F Font) (watermarkText : string)
    (canvasSize : Z) (angle : F) (y x : Z) (st : RGBA * DrawLog)
    : RGBA * DrawLog :=
  let '(rotX, rotY) := rotated canvasSize angle x y in
  if onCanvas canvasSize (rotX, rotY) then
    let pt := freetype_Pt (f_to_int rotX) (f_to_int rotY) in
    (DrawString c (fst st) watermarkText pt, snd st ++ [(watermarkText, pt)])
  else st.

(** The two tiling loops. *)
Definition drawTiles (fuel : nat) (c : Context F Font) (watermarkText : string)
    (canvasSize : Z) (angle : F) (spacing : Z * Z) (st : RGBA * DrawLog)
    : outcome (RGBA * DrawLog) :=
  let startX := anchorStart canvasSize in
  let endX := anchorEnd canvasSize in
  let startY := anchorStart canvasSize in
  let endY := anchorEnd canvasSize in
  for_step fuel startY endY (snd spacing) (fun y st =>
    for_step fuel startX endX (fst spacing) (fun x st =>
      Ok (drawTile c watermarkText canvasSize angle y x st)) st) st.

(** [createWatermarkImage] up to the call of [rotateAndCrop]: the tiled
    canvas and the draw calls that made it.  [screenWidth] and
    [screenHeight] are the globals of that name ([uintptr]). *)
Definition synthesize (cfg : WatermarkConfig F) (screenWidth screenHeight : Z)
    (username : string) (fuel : nat) : outcome (RGBA * DrawLog) :=
  let width := GoInt.wrap screenWidth in
  let height := GoInt.wrap screenHeight in
  let canvasSize := canvasSizeOf width height in
  let img := blankCanvas canvasSize in
  match truetype_Parse (fontData cfg) with
  | None => Fatal
  | Some font =>
      let c := mkContext (f_of_int 72) font (fontSize cfg) (Bounds img) color_Black in
      match GoStrings.Repeat " " (spaceCount cfg) with
      | None => Panic
      | Some spaces =>
          let watermarkText :=
            String.append "CompanyName "
              (String.append (extractUsername username) spaces) in
          let spacing := tilePitch cfg in
          let angle := (angle cfg * math_Pi / 180)%f64 in
          drawTiles fuel c watermarkText canvasSize angle spacing (img, [])
      end
  end.

Definition createWatermarkImage (cfg : WatermarkConfig F)
    (screenWidth screenHeight : Z) (username : string) (fuel : nat)
    : outcome RGBA :=
  bind (synthesize cfg screenWidth screenHeight username fuel) (fun st =>
    let final :=
      rotateAndCrop (fst st) (imageRotation cfg)
        (GoInt.wrap screenWidth) (GoInt.wrap screenHeight) in
    Ok final).

End Pipeline.

(** ** The pixel loop of [WM_PAINT] *)

(** [color.RGBA.RGBA()], its fourth result: the alpha channel spread over 16
    bits, [a |= a << 8]. *)
Definition RGBA_alpha16 (c : color_RGBA) : Z := Z.lor (A c) (Z.shiftl (A c) 8).

(** The two loops over [watermarkImage] in the window procedure: one call
    [SetPixelV(memDC, x, y, watermarkConfig.color)] for each pixel whose
    alpha is above zero.  The result is the list of the calls, as
    [(x, y, color)], in the order they are made. *)
Definition paintWatermark (watermarkImage : RGBA) (color : Z) : list (Z * Z * Z) :=
  for_range 0 (Dy (Bounds watermarkImage)) (fun y calls =>
    for_range 0 (Dx (Bounds watermarkImage)) (fun x calls =>
      let a := RGBA_alpha16 (RGBA_At watermarkImage x y) in
      if 0 <? a then calls ++ [(x, y, color)] else calls) calls) [].

(** ** [colorHexToBGR] *)

(** What [fmt.Sscanf(str, "%x", &color)] does with [str] for a [uint32]:
    it skips leading space (a newline is an error), takes the longest run
    of hexadecimal digits, and stores their value; on any error [color]
    keeps its old value.  The source ignores the error. *)

Module GoFmt.

Definition byte (c : ascii) : Z := Z.of_nat (nat_of_ascii c).

(** The value of a hexadecimal digit ([0-9], [a-f], [A-F]). *)
Definition hexDigit (c : ascii) : option Z :=
  let n := byte c in
  if (48 <=? n) && (n <=? 57) then Some (n - 48)
  else if (97 <=? n) && (n <=? 102) then Some (n - 87)
  else if (65 <=? n) && (n <=? 70) then Some (n - 55)
  else None.

(** The space runes of [fmt] that take three bytes in UTF-8: U+1680,
    U+2000 to U+200A, U+2028, U+2029, U+202F, U+205F and U+3000. *)
Definition space3 (b1 b2 b3 : Z) : bool :=
  ((b1 =? 225) && (b2 =? 154) && (b3 =? 128))
  || ((b1 =? 226) && (b2 =? 128)
      && (((128 <=? b3) && (b3 <=? 138)) || (b3 =? 168) || (b3 =? 169) || (b3 =? 175)))
  || ((b1 =? 226) && (b2 =? 129) && (b3 =? 159))
  || ((b1 =? 227) && (b2 =? 128) && (b3 =? 128)).

(** [ss.SkipSpace]: [None] is the error "unexpected newline"; otherwise what
    is left after the leading space runes (tab to carriage return but for
    the newline, the space, U+0085, U+00A0, and those of [space3]). *)
Fixpoint SkipSpace (s : string) : option string :=
  match s with
  | EmptyString => Some s
  | String c1 s1 =>
      if byte c1 =? 10 then None
      else if ((9 <=? byte c1) && (byte c1 <=? 13)) || (byte c1 =? 32)
      then SkipSpace s1
      else
        match s1 with
        | EmptyString => Some s
        | String c2 s2 =>
            if (byte c1 =? 194) && ((byte c2 =? 133) || (byte c2 =? 160))
            then SkipSpace s2
            else
              match s2 with
              | EmptyString => Some s
              | String c3 s3 =>
                  if space3 (byte c1) (byte c2) (byte c3) then SkipSpace s3
                  else Some s
              end
        end
  end.

(** [ss.scanNumber] with the hexadecimal digits: the digits of the longest
    run at the front. *)
Fixpoint scanNumber (s : string) : list Z :=
  match s with
  | EmptyString => []
  | String c s' =>
      match hexDigit c with
      | Some d => d :: scanNumber s'
      | None => []
      end
  end.

(** [strconv.ParseUint(tok, 16, 64)] on a run of digits. *)
Definition ParseUint16 (digits : list Z) : Z :=
  fold_left (fun acc d => acc * 16 + d) digits 0.

Definition Sscanf_x_uint32 (str : string) (color : Z) : Z :=
  match SkipSpace str with
  | None => color
  | Some rest =>
      match scanNumber rest with
      | [] => color
      | digits =>
          let i := ParseUint16 digits in
          if i <? 2 ^ 32 then i else color
      end
  end.

End GoFmt.

(** The slice expression [s[i:j]]. *)
Definition slice (s : string) (i j : Z) : string :=
  GoStrings.take (Z.to_nat (j - i)) (GoStrings.drop (Z.to_nat i) s).

Definition colorHexToBGR (hex : string) : Z :=
  let color := 0 in
  if GoStrings.len hex =? 6 then
    let r := slice hex 0 2 in
    let g := slice hex 2 4 in
    let b := slice hex 4 6 in
    let color := GoFmt.Sscanf_x_uint32 (String.append (String.append r g) b) color in
    Z.lor
      (Z.lor (Z.shiftr (Z.land color 16711680) 16) (Z.land color 65280))
      (Z.shiftl (Z.land color 255) 16)
  else 0.

(** ** The canvas side as the specification words it *)

(** [ceil(sqrt(w² + h²) * 5/4)]: the least [c >= 0] with
    [(4 c)² >= 25 (w² + h²)] (see [spec_canvasSize_least]). *)
Definition spec_canvasSize (w h : Z) : Z :=
  (Z.sqrt_up (25 * (w * w + h * h)) + 3) / 4.

(** ** The crop offset and the pitch as the specification words them *)

(** [canvas.width/2 - final.width/2], each half a whole number of pixels. *)
Definition spec_cropOffset (canvasSide targetSide : Z) : Z :=
  canvasSide / 2 - targetSide / 2.

(** [configured spacing × 4/3]. *)
Definition spec_effectiveSpacing (spacing : Z) : Q := inject_Z spacing * (4 # 3).

(** ** A reference implementation of the interfaces

    Exact rational arithmetic: the real-number semantics, which binary64
    agrees with wherever [Float64Exact] speaks.  [sqrt] is the root cut
    after 64 binary places; [cos] and [sin] are Taylor polynomials, exact
    at 0. *)

Module Exact.

Definition sqrt (q : Q) : Q :=
  Qred (Z.sqrt (Qfloor (q * inject_Z (4 ^ 64))) # (2 ^ 64)).
Definition cos (q : Q) : Q :=
  Qred (1 - q * q / 2 + q * q * q * q / 24 - q * q * q * q * q * q / 720).
Definition sin (q : Q) : Q :=
  Qred (q - q * q * q / 6 + q * q * q * q * q / 120).
Definition pi : Q := 3141592653589793 # 1000000000000000.

#[export] Instance ops : Float64Ops Q := {|
  f_of_int := inject_Z;
  f_to_int := Qtrunc;
  f_add a b := Qred (a + b);
  f_sub a b := Qred (a - b);
  f_mul a b := Qred (a * b);
  f_div a b := Qred (a / b);
  f_neg a := Qred (- a);
  f_le := Qle_bool;
  f_lt a b := negb (Qle_bool b a);
  math_Sqrt := sqrt;
  math_Cos := cos;
  math_Sin := sin;
  math_Pi := pi
|}.

(** A renderer for tests: any non-empty font blob parses, and a string is
    "drawn" by painting the pixel under its anchor, clipped. *)
#[export] Instance stamp : GlyphRenderer Q := {|
  Font := unit;
  truetype_Parse data := match data with [] => None | _ :: _ => Some tt end;
  DrawString c dst _ pt :=
    if Point_In (X pt / 64) (Y pt / 64) (c_clip c)
    then RGBA_Set dst (X pt / 64) (Y pt / 64) (c_src c)
    else dst
|}.

End Exact.

(** ** The kernel's binary64

    Rocq's primitive floats are IEEE 754 binary64: the laws of
    [Float64Exact] can be tried on them at given inputs. *)

Module Binary64.

Definition of_int (n : Z) : PrimFloat.float :=
  if n <? 0 then PrimFloat.opp (PrimFloat.of_uint63 (Uint63.of_Z (- n)))
  else PrimFloat.of_uint63 (Uint63.of_Z n).

(** [n <= f < n + 1]: for [n >= 0], [int(f)] is [n]. *)
Definition truncates_to (f : PrimFloat.float) (n : Z) : bool :=
  PrimFloat.leb (of_int n) f && PrimFloat.ltb f (of_int (n + 1)).

(** [oldX] of [rotateAndCrop] at a rotation of zero, where [math.Cos(-0)] is
    1 and [math.Sin(-0)] is -0. *)
Definition oldX_at_zero (x y targetWidth targetHeight canvasWidth : Z)
    : PrimFloat.float :=
  let dx := PrimFloat.sub (of_int x) (PrimFloat.div (of_int targetWidth) (of_int 2)) in
  let dy := PrimFloat.sub (of_int y) (PrimFloat.div (of_int targetHeight) (of_int 2)) in
  PrimFloat.add
    (PrimFloat.sub (PrimFloat.mul dx (of_int 1))
       (PrimFloat.mul dy (PrimFloat.opp (of_int 0))))
    (PrimFloat.div (of_int canvasWidth) (of_int 2)).

End Binary64.

(** ** Concrete inputs

    Small inputs on which the definitions are run. *)

Module Fixture.

Import Exact.

(** [watermarkConfig] with [spacingX] set to 0. *)
Definition zeroSpacingX : WatermarkConfig Q :=
  mkConfig (f_of_int 0) (f_of_int 320) (f_of_int 20) 5 16777215 7 0 125 [0].

(** A 4 by 4 canvas, transparent but for a black pixel at (1, 1). *)
Definition dot : RGBA := RGBA_Set (NewRGBA (image_Rect 0 0 4 4)) 1 1 color_Black.

(** A drawing context for a canvas of side 6. *)
Definition context6 : Context Q (Font (F := Q)) :=
  mkContext (f_of_int 72) tt (f_of_int 20) (image_Rect 0 0 6 6) color_Black.

(** [watermarkConfig] with no rotation and a spacing of (3, 2), for a screen
    of a few pixels. *)
Definition spacing_3_2 : WatermarkConfig Q :=
  mkConfig (f_of_int 0) (f_of_int 0) (f_of_int 20) 5 16777215 7 3 2 [0].

End Fixture.

(** ** Auxiliary notions used in the statements *)

(** A well-formed image: as [NewRGBA] makes them. *)
Definition well_formed (p : RGBA) : Prop :=
  0 <= Dx (Rect p) /\ 0 <= Dy (Rect p) /\ Stride p = Dx (Rect p)
  /\ length (Pix p) = Z.to_nat (Dx (Rect p) * Dy (Rect p)).

(** What one iteration of a pixel loop does: write [c], or nothing. *)
Definition put (d : RGBA) (x y : Z) (o : option color_RGBA) : RGBA :=
  match o with
  | Some c => RGBA_Set d x y c
  | None => d
  end.

(** The pixel that a loop of [put]s leaves at [(x, y)] when it visits it. *)
Definition written (px : Z -> Z -> option color_RGBA) (d : RGBA) (x y : Z)
    : color_RGBA :=
  match px x y with
  | Some c => if Point_In x y (Rect d) then c else mkRGBA 0 0 0 0
  | None => RGBA_At d x y
  end.

(** The values that [for i := lo; i < hi; i += step] visits when [step] is
    positive: [lo], [lo + step], ... as long as they are below [hi]. *)
Fixpoint progression (n : nat) (i step : Z) : list Z :=
  match n with
  | O => []
  | Datatypes.S n' => i :: progression n' (i + step) step
  end.

Definition steps (lo hi step : Z) : nat := Z.to_nat ((hi - lo + step - 1) / step).

Definition axisAnchors (lo hi step : Z) : list Z :=
  progression (steps lo hi step) lo step.

(** The anchors of a tiling, in the order of the loops: row after row. *)
Definition tileAnchors (xs ys : list Z) : list (Z * Z) :=
  List.flat_map (fun y => List.map (fun x => (x, y)) xs) ys.

(** The draw calls that a list of anchors gives rise to: one for each
    anchor that passes the guard, anchored at the truncated point. *)
Definition drawCalls {F : Type} `{Float64Ops F} (watermarkText : string)
    (canvasSize : Z) (angle : F) (anchors : list (Z * Z)) : DrawLog :=
  List.map
    (fun a => let p := rotated canvasSize angle (fst a) (snd a) in
              (watermarkText, freetype_Pt (f_to_int (fst p)) (f_to_int (snd p))))
    (List.filter
       (fun a => onCanvas canvasSize (rotated canvasSize angle (fst a) (snd a)))
       anchors).

(** The canvas after a list of draw calls: [DrawString] applied to each of
    them in turn. *)
Definition replay {F : Type} `{GlyphRenderer F} (c : Context F Font)
    (calls : DrawLog) (img : RGBA) : RGBA :=
  fold_left (fun img call => DrawString c img (fst call) (snd call)) calls img.

(** * Properties *)

(** ** Strings *)

Section StringFacts.

Import GoStrings.

Variable c : ascii.

Let sep : string := String c EmptyString.

Lemma prefix_sep_cons (x : ascii) (s : string) :
  String.prefix sep (String x s) = if ascii_dec c x then true else false.
Proof.
  unfold sep. cbn [String.prefix].
  destruct (ascii_dec c x); [destruct s |]; reflexivity.
Qed.

Lemma LastIndex_absent (s : string) :
  absent c s -> LastIndex s sep = -1.
Proof.
  induction s as [|x s IH]; intros Hs.
  - reflexivity.
  - destruct Hs as [Hx Hs]. cbn [LastIndex]. rewrite (IH Hs).
    rewrite prefix_sep_cons. destruct (ascii_dec c x); [congruence | reflexivity].
Qed.

Lemma LastIndex_last (a b : string) :
  absent c b -> LastIndex (String.append a (String c b)) sep = len a.
Proof.
  intros Hb. induction a as [|x a IH].
  - cbn [String.append LastIndex]. rewrite (LastIndex_absent b Hb).
    rewrite prefix_sep_cons. destruct (ascii_dec c c); [reflexivity | congruence].
  - cbn [String.append LastIndex]. rewrite IH.
    unfold len. cbn [String.length].
    destruct (Z.leb_spec 0 (Z.of_nat (String.length a))); lia.
Qed.

Lemma Index_absent (s : string) :
  absent c s -> Index s sep = -1.
Proof.
  induction s as [|x s IH]; intros Hs.
  - reflexivity.
  - destruct Hs as [Hx Hs]. cbn [Index]. rewrite (IH Hs).
    rewrite prefix_sep_cons. destruct (ascii_dec c x); [congruence | reflexivity].
Qed.

Lemma Index_first (a b : string) :
  absent c a -> Index (String.append a (String c b)) sep = len a.
Proof.
  induction a as [|x a IH]; intros Ha.
  - cbn [String.append Index]. rewrite prefix_sep_cons.
    destruct (ascii_dec c c); [reflexivity | congruence].
  - destruct Ha as [Hx Ha]. cbn [String.append Index]. rewrite (IH Ha).
    rewrite prefix_sep_cons. destruct (ascii_dec c x); [congruence |].
    unfold len. cbn [String.length].
    destruct (Z.ltb_spec (Z.of_nat (String.length a)) 0); lia.
Qed.

End StringFacts.

Lemma drop_after (a b : string) (x : ascii) :
  GoStrings.slice_from (String.append a (String x b)) (GoStrings.len a + 1) = b.
Proof.
  unfold GoStrings.slice_from, GoStrings.len.
  replace (Z.to_nat (Z.of_nat (String.length a) + 1)) with (S (String.length a)) by lia.
  induction a as [|y a IH]; [reflexivity | exact IH].
Qed.

Lemma take_before (a b : string) :
  GoStrings.slice_to (String.append a b) (GoStrings.len a) = a.
Proof.
  unfold GoStrings.slice_to, GoStrings.len. rewrite Nat2Z.id.
  induction a as [|y a IH]; cbn [String.append String.length GoStrings.take].
  - destruct b; reflexivity.
  - now rewrite IH.
Qed.

Lemma len_nonneg (s : string) : 0 <= GoStrings.len s.
Proof. unfold GoStrings.len. lia. Qed.

(** C10. [extractUsername] returns what follows the last backslash when
    there is one; otherwise what precedes the first '@' when there is one;
    otherwise its argument.  On [domain\name@host] the backslash rule
    applies and [@host] stays. *)
Theorem extractUsername_spec :
  (forall a b : string,
      GoStrings.absent (ascii_of_nat 92) b ->
      extractUsername (String.append a (String.append backslash b)) = b)
  /\ (forall s a b : string,
      GoStrings.absent (ascii_of_nat 92) s ->
      GoStrings.absent (ascii_of_nat 64) a ->
      s = String.append a (String.append at_sign b) ->
      extractUsername s = a)
  /\ (forall s : string,
      GoStrings.absent (ascii_of_nat 92) s ->
      GoStrings.absent (ascii_of_nat 64) s ->
      extractUsername s = s)
  /\ extractUsername "domain\name@host" = "name@host"%string.
Proof.
  repeat split.
  - intros a b Hb. unfold extractUsername, backslash. cbn [String.append].
    rewrite (LastIndex_last _ a b Hb).
    pose proof (len_nonneg a).
    destruct (Z.leb_spec 0 (GoStrings.len a)); [apply drop_after | lia].
  - intros s a b Hs Ha ->. unfold extractUsername.
    fold backslash. unfold backslash at 1.
    rewrite (LastIndex_absent _ _ Hs). cbn [Z.leb Z.compare].
    unfold at_sign. cbn [String.append].
    rewrite (Index_first _ a b Ha).
    pose proof (len_nonneg a).
    destruct (Z.leb_spec 0 (GoStrings.len a)); [apply take_before | lia].
  - intros s Hs Ha. unfold extractUsername, backslash, at_sign.
    rewrite (LastIndex_absent _ _ Hs), (Index_absent _ _ Ha). reflexivity.
Qed.

Lemma extractUsername_spec_witness :
  extractUsername "CORP\alice" = "alice"%string
  /\ extractUsername "alice@corp.example" = "alice"%string
  /\ extractUsername "alice" = "alice"%string.
Proof.
  destruct extractUsername_spec as (H1 & H2 & H3 & _).
  split; [| split].
  - apply (H1 "CORP"%string "alice"%string). vm_compute. intuition congruence.
  - apply (H2 "alice@corp.example"%string "alice"%string "corp.example"%string);
      [vm_compute; intuition congruence .. | reflexivity].
  - apply H3; vm_compute; intuition congruence.
Defined.

(** ** Images *)

Lemma image_Rect_pos (w h : Z) :
  0 <= w -> 0 <= h ->
  image_Rect 0 0 w h = mkRectangle (mkPoint 0 0) (mkPoint w h).
Proof.
  intros Hw Hh. unfold image_Rect.
  destruct (Z.ltb_spec w 0), (Z.ltb_spec h 0); try lia; reflexivity.
Qed.

Lemma image_Rect_Dx_Dy (w h : Z) :
  0 <= Dx (image_Rect 0 0 w h) /\ 0 <= Dy (image_Rect 0 0 w h).
Proof.
  unfold image_Rect, Dx, Dy.
  destruct (Z.ltb_spec w 0), (Z.ltb_spec h 0); cbn; lia.
Qed.

Lemma NewRGBA_well_formed (r : Rectangle) :
  0 <= Dx r -> 0 <= Dy r -> well_formed (NewRGBA r).
Proof.
  intros Hx Hy. unfold well_formed, NewRGBA. cbn.
  rewrite length_replicate. auto.
Qed.

Lemma RGBA_Set_Rect (p : RGBA) (x y : Z) (c : color_RGBA) :
  Rect (RGBA_Set p x y c) = Rect p.
Proof. unfold RGBA_Set. destruct (Point_In x y (Rect p)); reflexivity. Qed.

Lemma RGBA_Set_well_formed (p : RGBA) (x y : Z) (c : color_RGBA) :
  well_formed p -> well_formed (RGBA_Set p x y c).
Proof.
  unfold well_formed, RGBA_Set. intros (Hx & Hy & Hs & Hl).
  destruct (Point_In x y (Rect p)); cbn; [rewrite length_insert |]; auto.
Qed.

Lemma Point_In_spec (x y : Z) (r : Rectangle) :
  Point_In x y r = true <->
  X (Min r) <= x < X (Max r) /\ Y (Min r) <= y < Y (Max r).
Proof. unfold Point_In. rewrite !andb_true_iff. lia. Qed.

(** Distinct points of a well-formed image have distinct places in [Pix],
    all within it. *)
Lemma PixOffset_bounds (p : RGBA) (x y : Z) :
  well_formed p -> Point_In x y (Rect p) = true ->
  0 <= PixOffset p x y < Dx (Rect p) * Dy (Rect p).
Proof.
  intros (Hx & Hy & Hs & _) Hin. apply Point_In_spec in Hin.
  unfold PixOffset. rewrite Hs. unfold Dx, Dy in *. nia.
Qed.

Lemma PixOffset_inj (p : RGBA) (x y x' y' : Z) :
  well_formed p ->
  Point_In x y (Rect p) = true -> Point_In x' y' (Rect p) = true ->
  PixOffset p x y = PixOffset p x' y' -> x = x' /\ y = y'.
Proof.
  intros (Hx & Hy & Hs & _) Hin Hin'.
  apply Point_In_spec in Hin. apply Point_In_spec in Hin'.
  unfold PixOffset. rewrite Hs. unfold Dx, Dy in *. intros Heq.
  assert (y = y') by nia. subst y'. split; [lia | reflexivity].
Qed.

(** Reading after one [put]. *)
Lemma RGBA_At_put (d : RGBA) (x y : Z) (o : option color_RGBA) (x' y' : Z) :
  well_formed d ->
  RGBA_At (put d x y o) x' y' =
    match o with
    | Some c =>
        if decide (x' = x /\ y' = y /\ Point_In x y (Rect d) = true) then c
        else RGBA_At d x' y'
    | None => RGBA_At d x' y'
    end.
Proof.
  intros Hwf. destruct o as [c|]; [| reflexivity]. cbn [put].
  unfold RGBA_At. rewrite RGBA_Set_Rect. unfold RGBA_Set.
  destruct (Point_In x y (Rect d)) eqn:Hin.
  - destruct (Point_In x' y' (Rect d)) eqn:Hin'.
    + cbn [Pix Stride Rect].
      assert (Ho : PixOffset (mkImage (<[Z.to_nat (PixOffset d x y):=c]> (Pix d))
                                (Stride d) (Rect d)) x' y' = PixOffset d x' y')
        by reflexivity.
      rewrite Ho. clear Ho.
      pose proof (PixOffset_bounds d x y Hwf Hin) as Hb.
      pose proof (PixOffset_bounds d x' y' Hwf Hin') as Hb'.
      destruct Hwf as (Hx & Hy & Hs & Hl).
      destruct (decide _) as [(-> & -> & _)|Hne].
      * rewrite list_lookup_insert_eq by (rewrite Hl; lia). reflexivity.
      * rewrite list_lookup_insert_ne; [reflexivity |].
        intros Heq. apply Hne.
        assert (PixOffset d x y = PixOffset d x' y') as Heq' by lia.
        apply PixOffset_inj in Heq'; [| repeat split; assumption ..].
        destruct Heq'. auto.
    + destruct (decide _) as [(-> & -> & _)|Hne]; [congruence | reflexivity].
  - destruct (decide _) as [(_ & _ & ?)|Hne]; [congruence | reflexivity].
Qed.

Lemma put_well_formed (d : RGBA) (x y : Z) (o : option color_RGBA) :
  well_formed d -> well_formed (put d x y o).
Proof. destruct o; [apply RGBA_Set_well_formed | auto]. Qed.

Lemma put_Rect (d : RGBA) (x y : Z) (o : option color_RGBA) :
  Rect (put d x y o) = Rect d.
Proof. destruct o; [apply RGBA_Set_Rect | reflexivity]. Qed.

Lemma written_eq (px : Z -> Z -> option color_RGBA) (d1 d : RGBA) (x y : Z) :
  Rect d1 = Rect d ->
  (px x y = None -> RGBA_At d1 x y = RGBA_At d x y) ->
  written px d1 x y = written px d x y.
Proof.
  intros HR Hat. unfold written. rewrite HR.
  destruct (px x y); [reflexivity | auto].
Qed.

Lemma RGBA_At_outside (d : RGBA) (x y : Z) :
  Point_In x y (Rect d) = false -> RGBA_At d x y = mkRGBA 0 0 0 0.
Proof. intros Hin. unfold RGBA_At. now rewrite Hin. Qed.

(** One row of a pixel loop. *)
Lemma put_row (px : Z -> Z -> option color_RGBA) (y : Z) (xs : list Z) :
  forall d : RGBA,
    well_formed d ->
    let d' := fold_left (fun d x => put d x y (px x y)) xs d in
    well_formed d' /\ Rect d' = Rect d
    /\ forall x' y',
        RGBA_At d' x' y' =
          if decide (y' = y /\ x' ∈ xs) then written px d x' y'
          else RGBA_At d x' y'.
Proof.
  induction xs as [|x xs IH]; intros d Hwf; cbn [fold_left].
  - split; [assumption | split; [reflexivity |]]. intros x' y'.
    destruct (decide _) as [[_ Hin]|_]; [| reflexivity].
    now apply elem_of_nil in Hin.
  - destruct (IH (put d x y (px x y)) (put_well_formed _ _ _ _ Hwf))
      as (Hwf' & HR & Hat).
    rewrite put_Rect in HR.
    split; [assumption | split; [assumption |]]. intros x' y'. rewrite Hat.
    assert (Hone : RGBA_At (put d x y (px x y)) x' y' =
                   if decide (x' = x /\ y' = y) then written px d x' y'
                   else RGBA_At d x' y').
    { rewrite RGBA_At_put by assumption. unfold written.
      destruct (decide (x' = x /\ y' = y)) as [[-> ->]|Hne].
      - destruct (px x y) as [c|]; [| reflexivity].
        destruct (Point_In x y (Rect d)) eqn:Hin.
        + destruct (decide _) as [_|Hn]; [reflexivity | tauto].
        + destruct (decide _) as [(_ & _ & ?)|_]; [congruence |].
          now apply RGBA_At_outside.
      - destruct (px x y) as [c|]; [| reflexivity].
        destruct (decide _) as [(? & ? & _)|_]; [tauto | reflexivity]. }
    destruct (decide (y' = y /\ x' ∈ xs)) as [[-> Hin]|Hnot].
    + destruct (decide (y = y /\ x' ∈ x :: xs)) as [_|Hn];
        [| exfalso; apply Hn; split; [reflexivity | now apply list_elem_of_further]].
      apply written_eq; [apply put_Rect |].
      intros Hnone. rewrite Hone.
      destruct (decide _); [| reflexivity].
      unfold written. now rewrite Hnone.
    + rewrite Hone.
      destruct (decide (x' = x /\ y' = y)) as [[-> ->]|Hne].
      * destruct (decide _) as [_|Hn]; [reflexivity |].
        exfalso; apply Hn; split; [reflexivity | apply list_elem_of_here].
      * destruct (decide _) as [[-> Hin]|_]; [| reflexivity].
        apply elem_of_cons in Hin. destruct Hin as [->|Hin]; tauto.
Qed.

(** All the rows. *)
Lemma put_rows (px : Z -> Z -> option color_RGBA) (xs ys : list Z) :
  forall d : RGBA,
    well_formed d ->
    let d' :=
      fold_left (fun d y => fold_left (fun d x => put d x y (px x y)) xs d) ys d in
    well_formed d' /\ Rect d' = Rect d
    /\ forall x' y',
        RGBA_At d' x' y' =
          if decide (y' ∈ ys /\ x' ∈ xs) then written px d x' y'
          else RGBA_At d x' y'.
Proof.
  induction ys as [|y ys IH]; intros d Hwf; cbn [fold_left].
  - split; [assumption | split; [reflexivity |]]. intros x' y'.
    destruct (decide _) as [[Hin _]|_]; [| reflexivity].
    now apply elem_of_nil in Hin.
  - destruct (put_row px y xs d Hwf) as (Hwf1 & HR1 & Hat1).
    destruct (IH _ Hwf1) as (Hwf' & HR & Hat).
    split; [assumption | split; [congruence |]]. intros x' y'. rewrite Hat.
    destruct (decide (y' ∈ ys /\ x' ∈ xs)) as [[Hy Hx]|Hnot].
    + destruct (decide (y' ∈ y :: ys /\ x' ∈ xs)) as [_|Hn];
        [| exfalso; apply Hn; split; [now apply list_elem_of_further | assumption]].
      apply written_eq; [assumption |].
      intros Hnone. rewrite Hat1.
      destruct (decide _); [| reflexivity].
      unfold written. now rewrite Hnone.
    + rewrite Hat1.
      destruct (decide (y' = y /\ x' ∈ xs)) as [[-> Hx]|Hne].
      * destruct (decide _) as [_|Hn]; [reflexivity |].
        exfalso; apply Hn; split; [apply list_elem_of_here | assumption].
      * destruct (decide _) as [[Hy Hx]|_]; [| reflexivity].
        apply elem_of_cons in Hy. destruct Hy as [->|Hy]; tauto.
Qed.

(** The two nested [for] loops over a rectangle, as one statement. *)
Lemma for_range_put (px : Z -> Z -> option color_RGBA) (x0 x1 y0 y1 : Z) (d : RGBA) :
  well_formed d ->
  let d' :=
    for_range y0 y1 (fun y d =>
      for_range x0 x1 (fun x d => put d x y (px x y)) d) d in
  well_formed d' /\ Rect d' = Rect d
  /\ forall x y,
      RGBA_At d' x y =
        if decide (y0 <= y < y1 /\ x0 <= x < x1) then written px d x y
        else RGBA_At d x y.
Proof.
  intros Hwf. unfold for_range.
  destruct (put_rows px (seqZ x0 (x1 - x0)) (seqZ y0 (y1 - y0)) d Hwf)
    as (Hwf' & HR & Hat).
  split; [assumption | split; [assumption |]]. intros x y. rewrite Hat.
  destruct (decide (y ∈ seqZ y0 (y1 - y0) /\ x ∈ seqZ x0 (x1 - x0))) as [Hin|Hout];
    rewrite !elem_of_seqZ in *;
    destruct (decide _) as [?|Hn]; try reflexivity; exfalso; [apply Hn | apply Hout]; lia.
Qed.

Lemma for_range_ext {S : Type} (lo hi : Z) (f g : Z -> S -> S) (s : S) :
  (forall i t, f i t = g i t) -> for_range lo hi f s = for_range lo hi g s.
Proof.
  intros Hfg. unfold for_range. generalize (seqZ lo (hi - lo)) as l. intros l.
  revert s. induction l as [|i l IH]; intros s; cbn [fold_left];
    [reflexivity | now rewrite Hfg, IH].
Qed.

Lemma RGBA_At_NewRGBA (r : Rectangle) (x y : Z) :
  RGBA_At (NewRGBA r) x y = mkRGBA 0 0 0 0.
Proof.
  unfold RGBA_At, NewRGBA. cbn [Pix Rect].
  destruct (Point_In x y r); [| reflexivity].
  destruct (replicate _ _ !! _) as [c|] eqn:Hl; [| reflexivity].
  apply lookup_replicate in Hl. now destruct Hl as [-> _].
Qed.

Lemma RGBA_Set_NewRGBA (r : Rectangle) (x y : Z) :
  RGBA_Set (NewRGBA r) x y color_Transparent = NewRGBA r.
Proof.
  unfold RGBA_Set, NewRGBA, color_Transparent. cbn [Pix Rect Stride].
  destruct (Point_In x y r); [| reflexivity].
  now rewrite insert_replicate.
Qed.

Lemma fold_left_fixed {S T : Type} (f : S -> T -> S) (l : list T) (s : S) :
  (forall t, f s t = s) -> fold_left f l s = s.
Proof. intros Hf. induction l as [|t l IH]; cbn; [reflexivity | now rewrite Hf]. Qed.

Lemma blankCanvas_NewRGBA (canvasSize : Z) :
  blankCanvas canvasSize = NewRGBA (image_Rect 0 0 canvasSize canvasSize).
Proof.
  unfold blankCanvas, for_range.
  apply fold_left_fixed. intros y.
  apply fold_left_fixed. intros x. apply RGBA_Set_NewRGBA.
Qed.

(** C6. When the canvas has been created and painted, and no tile is drawn
    yet ([synthesize] starts [drawTiles] from [blankCanvas canvasSize]),
    [Pix] holds one pixel for every point of the canvas and each has
    alpha 0. *)
Theorem canvas_initially_transparent (canvasSize : Z) :
  let img := blankCanvas canvasSize in
  length (Pix img) = Z.to_nat (Dx (Rect img) * Dy (Rect img))
  /\ Forall (fun c => A c = 0) (Pix img)
  /\ forall x y, A (RGBA_At img x y) = 0.
Proof.
  cbv zeta. rewrite blankCanvas_NewRGBA. split; [| split].
  - unfold NewRGBA. cbn [Pix Rect]. apply length_replicate.
  - unfold NewRGBA. cbn [Pix]. apply Forall_replicate. reflexivity.
  - intros x y. now rewrite RGBA_At_NewRGBA.
Qed.

Section Resampler.

Context {F : Type} `{FO : Float64Ops F}.

(** The size and the pixels of the result of [rotateAndCrop]. *)
Lemma rotateAndCrop_pixels (img : RGBA) (rotationDegrees : F)
    (targetWidth targetHeight : Z) :
  0 <= targetWidth -> 0 <= targetHeight ->
  let final := rotateAndCrop img rotationDegrees targetWidth targetHeight in
  Rect final = mkRectangle (mkPoint 0 0) (mkPoint targetWidth targetHeight)
  /\ length (Pix final) = Z.to_nat (targetWidth * targetHeight)
  /\ forall x y,
      0 <= x < targetWidth -> 0 <= y < targetHeight ->
      let rad := (rotationDegrees * math_Pi / f_of_int 180)%f64 in
      let w := f_of_int (Dx (Rect img)) in
      let h := f_of_int (Dy (Rect img)) in
      let cx := (w / f_of_int 2)%f64 in
      let cy := (h / f_of_int 2)%f64 in
      let ncx := (f_of_int targetWidth / f_of_int 2)%f64 in
      let ncy := (f_of_int targetHeight / f_of_int 2)%f64 in
      let dx := (f_of_int x - ncx)%f64 in
      let dy := (f_of_int y - ncy)%f64 in
      let srcX := (dx * math_Cos (- rad) - dy * math_Sin (- rad) + cx)%f64 in
      let srcY := (dx * math_Sin (- rad) + dy * math_Cos (- rad) + cy)%f64 in
      RGBA_At final x y =
        if (f_of_int 0 <=? srcX)%f64 && (srcX <? w)%f64
           && (f_of_int 0 <=? srcY)%f64 && (srcY <? h)%f64
        then RGBA_At img (f_to_int srcX) (f_to_int srcY)
        else color_Transparent.
Proof.
  intros Hw Hh. cbv zeta. unfold rotateAndCrop, Bounds.
  set (rad := (rotationDegrees * math_Pi / f_of_int 180)%f64).
  set (w := f_of_int (Dx (Rect img))). set (h := f_of_int (Dy (Rect img))).
  set (src := fun x y : Z =>
    ((f_of_int x - f_of_int targetWidth / f_of_int 2) * math_Cos (- rad)
     - (f_of_int y - f_of_int targetHeight / f_of_int 2) * math_Sin (- rad)
     + w / f_of_int 2,
     (f_of_int x - f_of_int targetWidth / f_of_int 2) * math_Sin (- rad)
     + (f_of_int y - f_of_int targetHeight / f_of_int 2) * math_Cos (- rad)
     + h / f_of_int 2)%f64).
  set (px := fun x y : Z =>
    if (f_of_int 0 <=? fst (src x y))%f64 && (fst (src x y) <? w)%f64
       && (f_of_int 0 <=? snd (src x y))%f64 && (snd (src x y) <? h)%f64
    then Some (RGBA_At img (f_to_int (fst (src x y))) (f_to_int (snd (src x y))))
    else None).
  set (dst := NewRGBA (image_Rect 0 0 targetWidth targetHeight)).
  assert (Hwf : well_formed dst).
  { apply NewRGBA_well_formed; apply image_Rect_Dx_Dy. }
  erewrite for_range_ext; cycle 1.
  { intros y t. apply for_range_ext with (g := fun x d => put d x y (px x y)).
    intros x d. unfold px, src. cbn [fst snd].
    destruct (_ && _); reflexivity. }
  destruct (for_range_put px 0 targetWidth 0 targetHeight dst Hwf)
    as (Hwf' & HR & Hat).
  assert (HRdst : Rect dst = mkRectangle (mkPoint 0 0) (mkPoint targetWidth targetHeight)).
  { unfold dst, NewRGBA. cbn [Rect]. now apply image_Rect_pos. }
  split; [congruence | split].
  - destruct Hwf' as (_ & _ & _ & Hl). rewrite Hl, HR, HRdst.
    unfold Dx, Dy. cbn. f_equal. lia.
  - intros x y Hx Hy. rewrite Hat.
    destruct (decide _) as [_|Hn]; [| lia].
    unfold written. rewrite HRdst.
    assert (Hin : Point_In x y (mkRectangle (mkPoint 0 0) (mkPoint targetWidth targetHeight)) = true).
    { apply Point_In_spec. cbn. lia. }
    rewrite Hin. unfold px, src. cbn [fst snd].
    destruct (_ && _); [reflexivity |].
    unfold dst. apply RGBA_At_NewRGBA.
Qed.

(** C3. [rotateAndCrop] returns an image of [targetWidth] by
    [targetHeight] pixels; its pixel [(x, y)] is the pixel of [img] at the
    truncated source point [(srcX, srcY)] of the inverse mapping when that
    point is within the bounds of [img], and transparent otherwise. *)
Theorem rotateAndCrop_spec (img : RGBA) (rotationDegrees : F)
    (targetWidth targetHeight : Z) :
  0 <= targetWidth -> 0 <= targetHeight ->
  let final := rotateAndCrop img rotationDegrees targetWidth targetHeight in
  Rect final = mkRectangle (mkPoint 0 0) (mkPoint targetWidth targetHeight)
  /\ length (Pix final) = Z.to_nat (targetWidth * targetHeight)
  /\ forall x y,
      0 <= x < targetWidth -> 0 <= y < targetHeight ->
      let rad := (rotationDegrees * math_Pi / f_of_int 180)%f64 in
      let w := f_of_int (Dx (Rect img)) in
      let h := f_of_int (Dy (Rect img)) in
      let cx := (w / f_of_int 2)%f64 in
      let cy := (h / f_of_int 2)%f64 in
      let ncx := (f_of_int targetWidth / f_of_int 2)%f64 in
      let ncy := (f_of_int targetHeight / f_of_int 2)%f64 in
      let dx := (f_of_int x - ncx)%f64 in
      let dy := (f_of_int y - ncy)%f64 in
      let srcX := (dx * math_Cos (- rad) - dy * math_Sin (- rad) + cx)%f64 in
      let srcY := (dx * math_Sin (- rad) + dy * math_Cos (- rad) + cy)%f64 in
      RGBA_At final x y =
        if (f_of_int 0 <=? srcX)%f64 && (srcX <? w)%f64
           && (f_of_int 0 <=? srcY)%f64 && (srcY <? h)%f64
        then RGBA_At img (f_to_int srcX) (f_to_int srcY)
        else color_Transparent.
Proof. apply rotateAndCrop_pixels. Qed.

End Resampler.

(** ** Loops *)

Lemma wrap_in_range (n : Z) : GoInt.in_range n -> GoInt.wrap n = n.
Proof.
  unfold GoInt.in_range, GoInt.min_int, GoInt.max_int, GoInt.wrap. intros Hn.
  rewrite Z.mod_small; lia.
Qed.

Lemma wrap_range (n : Z) : GoInt.in_range (GoInt.wrap n).
Proof.
  unfold GoInt.in_range, GoInt.min_int, GoInt.max_int, GoInt.wrap.
  pose proof (Z.mod_pos_bound (n + 2 ^ 63) (2 ^ 64)). lia.
Qed.

Lemma for_step_ext {S : Type} (fuel : nat) (i hi step : Z)
    (f g : Z -> S -> outcome S) (s : S) :
  (forall j t, f j t = g j t) ->
  for_step fuel i hi step f s = for_step fuel i hi step g s.
Proof.
  intros Hfg. revert i s. induction fuel as [|fuel IH]; intros i s; cbn [for_step].
  - reflexivity.
  - destruct (i <? hi); [| reflexivity]. rewrite Hfg.
    destruct (g i s); cbn [bind]; auto.
Qed.

(** A loop whose body raises nothing raises nothing: it runs to its end or
    is still running when the fuel is spent. *)
Lemma for_step_cases {S : Type} (fuel : nat) (step hi : Z)
    (body : Z -> S -> outcome S) :
  (forall j t, body j t = OutOfFuel \/ exists t', body j t = Ok t') ->
  forall i s,
    for_step fuel i hi step body s = OutOfFuel
    \/ exists s', for_step fuel i hi step body s = Ok s'.
Proof.
  intros Hbody. induction fuel as [|fuel IH]; intros i s; cbn [for_step];
    destruct (i <? hi); eauto.
  destruct (Hbody i s) as [->|[t' ->]]; cbn [bind]; eauto.
Qed.

(** With a step of zero the loop never leaves its first iteration. *)
Lemma for_step_stuck {S : Type} (i hi : Z) (body : Z -> S -> outcome S) :
  GoInt.in_range i -> i < hi ->
  (forall s, body i s = OutOfFuel \/ exists s', body i s = Ok s') ->
  forall fuel s, for_step fuel i hi 0 body s = OutOfFuel.
Proof.
  intros Hi Hlt Hbody. induction fuel as [|fuel IH]; intros s; cbn [for_step];
    destruct (Z.ltb_spec i hi); try lia; [reflexivity |].
  unfold GoInt.add. rewrite Z.add_0_r, (wrap_in_range i Hi).
  destruct (Hbody s) as [->|[s' ->]]; cbn [bind]; auto.
Qed.

(** A loop whose first iteration does not come to its end does not either. *)
Lemma for_step_body_stuck {S : Type} (i hi step : Z) (body : Z -> S -> outcome S) :
  i < hi -> (forall s, body i s = OutOfFuel) ->
  forall fuel s, for_step fuel i hi step body s = OutOfFuel.
Proof.
  intros Hlt Hbody fuel s. destruct fuel as [|fuel]; cbn [for_step];
    destruct (Z.ltb_spec i hi); try lia; [reflexivity |].
  now rewrite Hbody.
Qed.

Lemma steps_done (lo hi step : Z) : 0 < step -> hi <= lo -> steps lo hi step = O.
Proof.
  intros Hs Hle. unfold steps.
  assert ((hi - lo + step - 1) / step <= 0); [| lia].
  apply Z.lt_succ_r. apply Z.div_lt_upper_bound; lia.
Qed.

Lemma steps_more (lo hi step : Z) :
  0 < step -> lo < hi -> steps lo hi step = S (steps (lo + step) hi step).
Proof.
  intros Hs Hlt. unfold steps.
  replace (hi - lo + step - 1) with ((hi - (lo + step) + step - 1) + 1 * step) by lia.
  rewrite Z.div_add by lia.
  assert (0 <= (hi - (lo + step) + step - 1) / step); [| lia].
  apply Z.div_pos; lia.
Qed.

(** With a positive step and enough fuel the loop runs to its end, over
    [axisAnchors]. *)
Lemma for_step_pure {S : Type} (step hi : Z) (body : Z -> S -> S) :
  0 < step -> hi + step <= GoInt.max_int ->
  forall fuel i s,
    GoInt.min_int <= i -> (steps i hi step <= fuel)%nat ->
    for_step fuel i hi step (fun j t => Ok (body j t)) s =
      Ok (fold_left (fun t j => body j t) (axisAnchors i hi step) s).
Proof.
  intros Hs Hhi. unfold axisAnchors.
  induction fuel as [|fuel IH]; intros i s Hi Hfuel; cbn [for_step];
    destruct (Z.ltb_spec i hi) as [Hlt|Hge].
  - rewrite (steps_more i hi step Hs Hlt) in Hfuel. lia.
  - rewrite (steps_done i hi step Hs Hge). reflexivity.
  - rewrite (steps_more i hi step Hs Hlt) in *. cbn [bind progression fold_left].
    unfold GoInt.add. rewrite wrap_in_range by (unfold GoInt.in_range; lia).
    apply IH; lia.
  - rewrite (steps_done i hi step Hs Hge). reflexivity.
Qed.

Lemma elem_of_progression (n : nat) (step v : Z) :
  forall i, v ∈ progression n i step <->
            exists k, 0 <= k < Z.of_nat n /\ v = i + k * step.
Proof.
  induction n as [|n IH]; intros i; cbn [progression].
  - rewrite elem_of_nil. split; [tauto | intros (k & ? & _); lia].
  - rewrite elem_of_cons, IH. split.
    + intros [->|(k & Hk & ->)]; [exists 0 | exists (k + 1)]; split; lia.
    + intros (k & Hk & ->). destruct (decide (k = 0)) as [->|Hne]; [left; lia |].
      right. exists (k - 1). split; lia.
Qed.

(** The values visited: every [lo + k step] below [hi], and nothing else. *)
Lemma elem_of_axisAnchors (lo hi step v : Z) :
  0 < step ->
  v ∈ axisAnchors lo hi step <-> exists k, 0 <= k /\ v = lo + k * step /\ v < hi.
Proof.
  intros Hs. unfold axisAnchors, steps. rewrite elem_of_progression.
  set (q := (hi - lo + step - 1) / step).
  assert (Hq : forall k, 0 <= k -> (k < q <-> lo + k * step < hi)).
  { intros k Hk. unfold q. split; intros H.
    - assert (k + 1 <= (hi - lo + step - 1) / step) as H' by lia.
      apply (Z.mul_le_mono_nonneg_l _ _ step) in H'; [| lia].
      pose proof (Z.mul_div_le (hi - lo + step - 1) step Hs). nia.
    - assert (k + 1 <= (hi - lo + step - 1) / step); [| lia].
      apply Z.div_le_lower_bound; [assumption | nia]. }
  split.
  - intros (k & Hk & ->). exists k.
    split; [lia | split; [reflexivity |]]. apply Hq; lia.
  - intros (k & Hk & -> & Hlt). exists k.
    apply Hq in Hlt; [| assumption]. split; lia.
Qed.

(** ** The tiling loops *)

Lemma quo_neg_2 (n : Z) : 0 <= n <= 2 ^ 61 -> GoInt.quo (GoInt.neg n) 2 = - (n / 2).
Proof.
  intros Hn. unfold GoInt.quo, GoInt.neg.
  rewrite (wrap_in_range (- n)) by (unfold GoInt.in_range, GoInt.min_int, GoInt.max_int; lia).
  rewrite Z.quot_opp_l by lia. rewrite Z.quot_div_nonneg by lia.
  pose proof (Z.div_pos n 2). pose proof (Z.div_le_upper_bound n 2 n).
  apply wrap_in_range. unfold GoInt.in_range, GoInt.min_int, GoInt.max_int. lia.
Qed.

Lemma quo_mul_pos (n a b : Z) :
  0 <= n <= 2 ^ 60 -> 0 < a <= 5 -> 0 < b ->
  GoInt.quo (GoInt.mul n a) b = n * a / b.
Proof.
  intros Hn Ha Hb. unfold GoInt.quo, GoInt.mul.
  rewrite (wrap_in_range (n * a)) by (unfold GoInt.in_range, GoInt.min_int, GoInt.max_int; nia).
  rewrite Z.quot_div_nonneg by nia.
  assert (0 <= n * a / b <= n * a).
  { split; [apply Z.div_pos; nia |]. apply Z.div_le_upper_bound; nia. }
  apply wrap_in_range. unfold GoInt.in_range, GoInt.min_int, GoInt.max_int. nia.
Qed.

Section Synthesizer.

Context {F : Type} `{FO : Float64Ops F} `{GR : GlyphRenderer F}.

Variables (c : Context F Font) (watermarkText : string) (canvasSize : Z) (angle : F).

Lemma snd_drawTile (y x : Z) (st : RGBA * DrawLog) :
  snd (drawTile c watermarkText canvasSize angle y x st) =
    snd st ++ drawCalls watermarkText canvasSize angle [(x, y)].
Proof.
  unfold drawTile, drawCalls. cbn [List.filter fst snd].
  destruct (rotated canvasSize angle x y) as [rotX rotY] eqn:Hrot.
  destruct (onCanvas canvasSize (rotX, rotY)); cbn [List.map fst snd].
  - rewrite Hrot. reflexivity.
  - now rewrite app_nil_r.
Qed.

Lemma drawCalls_app (l1 l2 : list (Z * Z)) :
  drawCalls watermarkText canvasSize angle (l1 ++ l2) =
    drawCalls watermarkText canvasSize angle l1
    ++ drawCalls watermarkText canvasSize angle l2.
Proof. unfold drawCalls. now rewrite List.filter_app, List.map_app. Qed.

Lemma snd_row (y : Z) (xs : list Z) :
  forall st,
    snd (fold_left (fun st x => drawTile c watermarkText canvasSize angle y x st) xs st) =
      snd st ++ drawCalls watermarkText canvasSize angle (List.map (fun x => (x, y)) xs).
Proof.
  induction xs as [|x xs IH]; intros st; cbn [fold_left List.map].
  - unfold drawCalls. cbn. now rewrite app_nil_r.
  - rewrite IH, snd_drawTile, <- app_assoc. f_equal.
    now rewrite <- drawCalls_app.
Qed.

Lemma snd_rows (xs ys : list Z) :
  forall st,
    snd (fold_left (fun st y =>
           fold_left (fun st x => drawTile c watermarkText canvasSize angle y x st) xs st)
         ys st) =
      snd st ++ drawCalls watermarkText canvasSize angle (tileAnchors xs ys).
Proof.
  induction ys as [|y ys IH]; intros st; cbn [fold_left tileAnchors List.flat_map].
  - unfold drawCalls. cbn. now rewrite app_nil_r.
  - rewrite IH, snd_row, <- app_assoc. f_equal.
    now rewrite <- drawCalls_app.
Qed.

Lemma replay_app (l1 l2 : DrawLog) (img : RGBA) :
  replay c (l1 ++ l2) img = replay c l2 (replay c l1 img).
Proof. unfold replay. apply fold_left_app. Qed.

(** One tile: the canvas is [DrawString] applied to the call of the anchor,
    if it makes one. *)
Lemma drawTile_replay (y x : Z) (st : RGBA * DrawLog) :
  drawTile c watermarkText canvasSize angle y x st =
    (replay c (drawCalls watermarkText canvasSize angle [(x, y)]) (fst st),
     snd st ++ drawCalls watermarkText canvasSize angle [(x, y)]).
Proof.
  rewrite <- snd_drawTile. rewrite (surjective_pairing (drawTile _ _ _ _ _ _ _)) at 1.
  f_equal. unfold drawTile, drawCalls. cbn [List.filter fst snd].
  destruct (rotated canvasSize angle x y) as [rotX rotY] eqn:Hrot.
  destruct (onCanvas canvasSize (rotX, rotY)); cbn [List.map fst snd replay fold_left].
  - rewrite Hrot. reflexivity.
  - reflexivity.
Qed.

Lemma row_replay (y : Z) (xs : list Z) :
  forall st,
    fold_left (fun st x => drawTile c watermarkText canvasSize angle y x st) xs st =
      (replay c (drawCalls watermarkText canvasSize angle (List.map (fun x => (x, y)) xs))
         (fst st),
       snd st ++ drawCalls watermarkText canvasSize angle (List.map (fun x => (x, y)) xs)).
Proof.
  induction xs as [|x xs IH]; intros st; cbn [fold_left List.map].
  - unfold drawCalls. cbn. rewrite app_nil_r. now destruct st.
  - rewrite IH, drawTile_replay. cbn [fst snd].
    change ((x, y) :: List.map (fun x0 => (x0, y)) xs)
      with ([(x, y)] ++ List.map (fun x0 => (x0, y)) xs).
    now rewrite drawCalls_app, replay_app, <- app_assoc.
Qed.

(** The two loops over given anchors: the canvas is the replay of the draw
    calls of the anchors, and the log is these calls. *)
Lemma rows_replay (xs ys : list Z) :
  forall st,
    fold_left (fun st y =>
      fold_left (fun st x => drawTile c watermarkText canvasSize angle y x st) xs st)
      ys st =
      (replay c (drawCalls watermarkText canvasSize angle (tileAnchors xs ys)) (fst st),
       snd st ++ drawCalls watermarkText canvasSize angle (tileAnchors xs ys)).
Proof.
  induction ys as [|y ys IH]; intros st; cbn [fold_left tileAnchors List.flat_map].
  - unfold drawCalls. cbn. rewrite app_nil_r. now destruct st.
  - rewrite IH, row_replay. cbn [fst snd].
    now rewrite drawCalls_app, replay_app, <- app_assoc.
Qed.

(** With positive pitches and enough fuel, [drawTiles] runs to its end, over
    the anchors between [- (canvasSize / 2)] and [canvasSize * 3 / 2]. *)
Lemma drawTiles_run (sx sy : Z) (fuel : nat) (st : RGBA * DrawLog) :
  0 <= canvasSize <= 2 ^ 60 -> 0 < sx <= 2 ^ 60 -> 0 < sy <= 2 ^ 60 ->
  let lo := - (canvasSize / 2) in
  let hi := canvasSize * 3 / 2 in
  (steps lo hi sx <= fuel)%nat -> (steps lo hi sy <= fuel)%nat ->
  drawTiles fuel c watermarkText canvasSize angle (sx, sy) st =
    Ok (fold_left (fun st y =>
          fold_left (fun st x => drawTile c watermarkText canvasSize angle y x st)
            (axisAnchors lo hi sx) st)
        (axisAnchors lo hi sy) st).
Proof.
  intros Hc Hsx Hsy lo hi Hfx Hfy. unfold drawTiles, anchorStart, anchorEnd.
  rewrite quo_neg_2 by lia. rewrite quo_mul_pos by lia.
  fold lo hi. cbn [fst snd].
  assert (Hlo : GoInt.min_int <= lo).
  { unfold lo, GoInt.min_int. pose proof (Z.div_le_upper_bound canvasSize 2 canvasSize). lia. }
  assert (Hhi : hi <= 2 ^ 61).
  { unfold hi. apply Z.div_le_upper_bound; lia. }
  erewrite for_step_ext; cycle 1.
  { intros y t. apply for_step_pure; [lia | unfold GoInt.max_int; lia | exact Hlo | exact Hfx]. }
  apply (for_step_pure sy hi
           (fun y t => fold_left (fun st x => drawTile c watermarkText canvasSize angle y x st)
                         (axisAnchors lo hi sx) t));
    [lia | unfold GoInt.max_int; lia | exact Hlo | exact Hfy].
Qed.

(** With a pitch of zero on either axis, [drawTiles] never runs to its
    end. *)
Lemma drawTiles_stuck (sx sy : Z) :
  1 <= canvasSize <= 2 ^ 60 -> sx = 0 \/ sy = 0 ->
  forall fuel st,
    drawTiles fuel c watermarkText canvasSize angle (sx, sy) st = OutOfFuel.
Proof.
  intros Hc Hs fuel st. unfold drawTiles, anchorStart, anchorEnd.
  rewrite quo_neg_2 by lia. rewrite quo_mul_pos by lia. cbn [fst snd].
  set (lo := - (canvasSize / 2)). set (hi := canvasSize * 3 / 2).
  assert (Hlo : GoInt.in_range lo).
  { unfold lo, GoInt.in_range, GoInt.min_int, GoInt.max_int.
    pose proof (Z.div_le_upper_bound canvasSize 2 canvasSize).
    pose proof (Z.div_pos canvasSize 2). lia. }
  assert (Hlt : lo < hi).
  { unfold lo, hi. pose proof (Z.div_pos canvasSize 2).
    assert (1 <= canvasSize * 3 / 2) by (apply Z.div_le_lower_bound; lia). lia. }
  destruct Hs as [-> | ->].
  - apply for_step_body_stuck; [assumption |].
    intros t. apply for_step_stuck; eauto.
  - apply for_step_stuck; [assumption .. |].
    intros t. apply for_step_cases. eauto.
Qed.

(** Whatever the pitches, [drawTiles] raises nothing. *)
Lemma drawTiles_cases (spacing : Z * Z) (fuel : nat) (st : RGBA * DrawLog) :
  drawTiles fuel c watermarkText canvasSize angle spacing st = OutOfFuel
  \/ exists st', drawTiles fuel c watermarkText canvasSize angle spacing st = Ok st'.
Proof.
  unfold drawTiles. apply for_step_cases.
  intros y t. apply for_step_cases. eauto.
Qed.

End Synthesizer.

(** ** [createWatermarkImage] as a whole *)

Lemma quot_3_trunc (a : Z) : Z.quot a 3 = Qtrunc (a # 3).
Proof.
  unfold Qtrunc, Qle_bool, Qceiling, Qfloor, Qopp. cbn [Qnum Qden].
  rewrite Z.mul_1_r, Z.mul_0_l.
  destruct (Z.leb_spec 0 a).
  - now rewrite Z.quot_div_nonneg by lia.
  - rewrite <- (Z.opp_involutive a) at 1. rewrite Z.quot_opp_l by lia.
    now rewrite Z.quot_div_nonneg by lia.
Qed.

Section Whole.

Context {F : Type} `{FO : Float64Ops F} `{GR : GlyphRenderer F}.

Variables (cfg : WatermarkConfig F) (screenWidth screenHeight : Z) (username : string).

(** Once the font has parsed and the padding is built, [synthesize] is the
    tiling of the blank canvas, at the pitch [tilePitch cfg]. *)
Lemma synthesize_tiles (font : Font) (spaces : string) (fuel : nat) :
  truetype_Parse (fontData cfg) = Some font ->
  GoStrings.Repeat " " (spaceCount cfg) = Some spaces ->
  let canvasSize := canvasSizeOf (GoInt.wrap screenWidth) (GoInt.wrap screenHeight) in
  synthesize cfg screenWidth screenHeight username fuel =
    drawTiles fuel
      (mkContext (f_of_int 72) font (fontSize cfg)
         (Bounds (blankCanvas canvasSize)) color_Black)
      (String.append "CompanyName " (String.append (extractUsername username) spaces))
      canvasSize
      (angle cfg * math_Pi / f_of_int 180)%f64
      (tilePitch cfg)
      (blankCanvas canvasSize, []).
Proof. intros Hfont Hspaces. unfold synthesize. now rewrite Hfont, Hspaces. Qed.

(** The only fatal error is a font that does not parse. *)
Lemma createWatermarkImage_not_Fatal (fuel : nat) :
  truetype_Parse (fontData cfg) <> None ->
  createWatermarkImage cfg screenWidth screenHeight username fuel <> Fatal.
Proof.
  intros Hfont. unfold createWatermarkImage, synthesize.
  destruct (truetype_Parse (fontData cfg)) as [font|]; [| congruence].
  destruct (GoStrings.Repeat " " (spaceCount cfg)) as [spaces|]; [| discriminate].
  match goal with |- context [drawTiles ?f ?c ?t ?n ?a ?s ?st] =>
    destruct (drawTiles_cases c t n a s f st) as [->|[st' ->]] end;
    discriminate.
Qed.

(** With a spacing of zero the function does not return. *)
Lemma createWatermarkImage_stuck (fuel : nat) :
  truetype_Parse (fontData cfg) <> None ->
  0 <= spaceCount cfg ->
  1 <= canvasSizeOf (GoInt.wrap screenWidth) (GoInt.wrap screenHeight) <= 2 ^ 60 ->
  spacingX cfg = 0 \/ spacingY cfg = 0 ->
  createWatermarkImage cfg screenWidth screenHeight username fuel = OutOfFuel.
Proof.
  intros Hfont Hcount Hsize Hzero. unfold createWatermarkImage, synthesize.
  destruct (truetype_Parse (fontData cfg)) as [font|]; [| congruence].
  unfold GoStrings.Repeat. destruct (Z.ltb_spec (spaceCount cfg) 0); [lia |].
  unfold tilePitch. rewrite drawTiles_stuck; [reflexivity | assumption |].
  destruct Hzero as [-> | ->]; [left | right]; reflexivity.
Qed.

(** C2 (as the code has it).  No spacing is rejected: when the font parses,
    [createWatermarkImage] raises no fatal error, whatever the spacing.
    With [spacingX = 0] or [spacingY = 0] (and a canvas of at least one
    pixel) it enters the tiling loop, which never advances on that axis:
    the function does not return, however long it runs. *)
Theorem spacing_is_not_validated :
  truetype_Parse (fontData cfg) <> None ->
  (forall fuel, createWatermarkImage cfg screenWidth screenHeight username fuel <> Fatal)
  /\ (0 <= spaceCount cfg ->
      1 <= canvasSizeOf (GoInt.wrap screenWidth) (GoInt.wrap screenHeight) <= 2 ^ 60 ->
      spacingX cfg = 0 \/ spacingY cfg = 0 ->
      forall fuel,
        createWatermarkImage cfg screenWidth screenHeight username fuel = OutOfFuel).
Proof.
  intros Hfont. split.
  - intros fuel. now apply createWatermarkImage_not_Fatal.
  - intros Hcount Hsize Hzero fuel. now apply createWatermarkImage_stuck.
Qed.

(** C7 (as the code has it).  The tile pitch is not the configured spacing
    times 4/3 but that product cut to a whole number of pixels
    ([s * 4 / 3] on [int], rounding towards zero), by the same expression
    on both axes, as long as [s * 4] does not overflow; it is the exact
    product only for a spacing that is a multiple of 3.  This pitch is the
    step of the tiling loops. *)
Theorem effective_spacing_is_four_thirds :
  Z.abs (spacingX cfg) <= 2 ^ 60 -> Z.abs (spacingY cfg) <= 2 ^ 60 ->
  tilePitch cfg =
    (Qtrunc (spec_effectiveSpacing (spacingX cfg)),
     Qtrunc (spec_effectiveSpacing (spacingY cfg)))
  /\ tilePitch cfg = (Z.quot (spacingX cfg * 4) 3, Z.quot (spacingY cfg * 4) 3)
  /\ ((inject_Z (fst (tilePitch cfg)) == spec_effectiveSpacing (spacingX cfg))%Q
      <-> spacingX cfg mod 3 = 0)
  /\ ((inject_Z (snd (tilePitch cfg)) == spec_effectiveSpacing (spacingY cfg))%Q
      <-> spacingY cfg mod 3 = 0)
  /\ forall font spaces fuel,
      truetype_Parse (fontData cfg) = Some font ->
      GoStrings.Repeat " " (spaceCount cfg) = Some spaces ->
      let canvasSize :=
        canvasSizeOf (GoInt.wrap screenWidth) (GoInt.wrap screenHeight) in
      synthesize cfg screenWidth screenHeight username fuel =
        drawTiles fuel
          (mkContext (f_of_int 72) font (fontSize cfg)
             (Bounds (blankCanvas canvasSize)) color_Black)
          (String.append "CompanyName "
             (String.append (extractUsername username) spaces))
          canvasSize
          (angle cfg * math_Pi / f_of_int 180)%f64
          (tilePitch cfg)
          (blankCanvas canvasSize, []).
Proof.
  intros Hx Hy.
  assert (Hq : forall s, Z.abs s <= 2 ^ 60 ->
                         GoInt.quo (GoInt.mul s 4) 3 = Z.quot (s * 4) 3).
  { intros s Hs. unfold GoInt.quo, GoInt.mul.
    rewrite (wrap_in_range (s * 4))
      by (unfold GoInt.in_range, GoInt.min_int, GoInt.max_int; lia).
    apply wrap_in_range. unfold GoInt.in_range, GoInt.min_int, GoInt.max_int.
    destruct (Z.le_gt_cases 0 s).
    - rewrite Z.quot_div_nonneg by lia.
      pose proof (Z.div_pos (s * 4) 3).
      pose proof (Z.div_le_upper_bound (s * 4) 3 (s * 4)). lia.
    - replace (s * 4) with (- (- s * 4)) by lia.
      rewrite Z.quot_opp_l, Z.quot_div_nonneg by lia.
      pose proof (Z.div_pos (- s * 4) 3).
      pose proof (Z.div_le_upper_bound (- s * 4) 3 (- s * 4)). lia. }
  assert (Ht : forall s, Qtrunc (spec_effectiveSpacing s) = Z.quot (s * 4) 3).
  { intros s. rewrite quot_3_trunc. reflexivity. }
  assert (He : forall s, (inject_Z (Z.quot (s * 4) 3) == spec_effectiveSpacing s)%Q
                         <-> s mod 3 = 0).
  { intros s. unfold spec_effectiveSpacing, Qeq, Qmult, inject_Z. cbn [Qnum Qden].
    change (Z.pos (1 * 3)) with 3. rewrite Z.mul_1_r.
    pose proof (Z.quot_rem' (s * 4) 3) as Hqr.
    pose proof (Z.rem_bound_abs (s * 4) 3 ltac:(lia)) as Hrb.
    pose proof (Z.div_mod s 3 ltac:(lia)) as Hdm.
    pose proof (Z.mod_pos_bound s 3 ltac:(lia)) as Hmb.
    split; intros H; lia. }
  split; [| split; [| split; [| split]]].
  - unfold tilePitch. now rewrite !Hq, !Ht.
  - unfold tilePitch. now rewrite !Hq.
  - unfold tilePitch. cbn [fst]. rewrite Hq by assumption. apply He.
  - unfold tilePitch. cbn [snd]. rewrite Hq by assumption. apply He.
  - intros font spaces fuel. apply synthesize_tiles.
Qed.

End Whole.

Section Tiling.

Context {F : Type} `{FO : Float64Ops F} `{GR : GlyphRenderer F}.

Variables (c : Context F Font) (watermarkText : string) (canvasSize : Z) (angle : F).

(** C8. On each axis the tiling loops visit [-canvasSize/2],
    [-canvasSize/2 + pitch], [-canvasSize/2 + 2 pitch], ...: every such value
    below [canvasSize*3/2] and no other; the inner loop runs over the
    horizontal ones once for each vertical one, and the loops end. *)
Theorem tile_anchor_range (sx sy : Z) (fuel : nat) (st : RGBA * DrawLog) :
  0 <= canvasSize <= 2 ^ 60 -> 0 < sx <= 2 ^ 60 -> 0 < sy <= 2 ^ 60 ->
  let lo := - (canvasSize / 2) in
  let hi := canvasSize * 3 / 2 in
  (steps lo hi sx <= fuel)%nat -> (steps lo hi sy <= fuel)%nat ->
  anchorStart canvasSize = lo /\ anchorEnd canvasSize = hi
  /\ drawTiles fuel c watermarkText canvasSize angle (sx, sy) st =
       Ok (fold_left (fun st y =>
             fold_left (fun st x => drawTile c watermarkText canvasSize angle y x st)
               (axisAnchors lo hi sx) st)
           (axisAnchors lo hi sy) st)
  /\ (forall x, x ∈ axisAnchors lo hi sx <->
                exists k, 0 <= k /\ x = lo + k * sx /\ x < hi)
  /\ (forall y, y ∈ axisAnchors lo hi sy <->
                exists k, 0 <= k /\ y = lo + k * sy /\ y < hi).
Proof.
  intros Hc Hsx Hsy lo hi Hfx Hfy.
  split; [unfold anchorStart; apply quo_neg_2; lia |].
  split; [unfold anchorEnd; apply quo_mul_pos; lia |].
  split; [now apply drawTiles_run |].
  split; intros v; apply elem_of_axisAnchors; lia.
Qed.

(** C5. A run of the tiling loops applies [DrawString] to the canvas once
    for each anchor whose turned and centred point [(rotX, rotY)] satisfies
    [0 <= rotX < canvasSize] and [0 <= rotY < canvasSize], at the truncated
    point and in the order of the loops, and does nothing else to it: the
    canvas at the end is the replay of exactly these calls, which are also
    what the log gains.  An anchor that fails the test leaves the canvas
    and the log as they are. *)
Theorem draw_only_on_canvas (sx sy : Z) (fuel : nat) (st : RGBA * DrawLog) :
  0 <= canvasSize <= 2 ^ 60 -> 0 < sx <= 2 ^ 60 -> 0 < sy <= 2 ^ 60 ->
  let lo := - (canvasSize / 2) in
  let hi := canvasSize * 3 / 2 in
  (steps lo hi sx <= fuel)%nat -> (steps lo hi sy <= fuel)%nat ->
  (let calls :=
     drawCalls watermarkText canvasSize angle
       (tileAnchors (axisAnchors lo hi sx) (axisAnchors lo hi sy)) in
   drawTiles fuel c watermarkText canvasSize angle (sx, sy) st =
     Ok (replay c calls (fst st), snd st ++ calls))
  /\ (forall x y,
        let rotX := (f_of_int x * math_Cos angle - f_of_int y * math_Sin angle
                     + f_of_int canvasSize / f_of_int 2)%f64 in
        let rotY := (f_of_int x * math_Sin angle + f_of_int y * math_Cos angle
                     + f_of_int canvasSize / f_of_int 2)%f64 in
        let inside :=
          (f_of_int 0 <=? rotX)%f64 && (rotX <? f_of_int canvasSize)%f64
          && (f_of_int 0 <=? rotY)%f64 && (rotY <? f_of_int canvasSize)%f64 in
        drawCalls watermarkText canvasSize angle [(x, y)] =
          (if inside
           then [(watermarkText, freetype_Pt (f_to_int rotX) (f_to_int rotY))]
           else [])
        /\ (inside = false ->
            forall st', drawTile c watermarkText canvasSize angle y x st' = st')).
Proof.
  intros Hc Hsx Hsy lo hi Hfx Hfy. split.
  - cbv zeta. rewrite drawTiles_run by assumption. fold lo hi.
    now rewrite rows_replay.
  - intros x y. cbv zeta. unfold drawCalls, drawTile, rotated, onCanvas.
    cbn [List.filter List.map fst snd].
    destruct (_ && _); cbn [List.map fst snd]; split; try reflexivity; discriminate.
Qed.

End Tiling.

(** ** Arithmetic on half-integers, from the exactness laws *)

Section Exactness.

Context {F : Type} `{FE : Float64Exact F}.

Lemma half_int_intro (q : Q) (k : Z) :
  Z.abs k <= 2 ^ 53 -> (q == k # 2)%Q -> half_int q.
Proof. intros Hk Hq. exists k. auto. Qed.

Lemma repr_int (n : Z) : Z.abs n <= 2 ^ 52 -> repr (f_of_int n) (2 * n # 2).
Proof.
  intros Hn. apply repr_proper with (inject_Z n); [apply repr_of_int; lia |].
  unfold Qeq, inject_Z. cbn [Qnum Qden]. lia.
Qed.

Lemma repr_h_add (a b : F) (k l : Z) :
  repr a (k # 2) -> repr b (l # 2) -> Z.abs (k + l) <= 2 ^ 53 ->
  repr (a + b)%f64 (k + l # 2).
Proof.
  intros Ha Hb Hkl.
  assert (Heq : ((k # 2) + (l # 2) == k + l # 2)%Q)
    by (unfold Qeq, Qplus; cbn [Qnum Qden]; lia).
  apply repr_proper with ((k # 2) + (l # 2))%Q; [| exact Heq].
  apply repr_add; [assumption .. |]. now apply (half_int_intro _ (k + l)).
Qed.

Lemma repr_h_sub (a b : F) (k l : Z) :
  repr a (k # 2) -> repr b (l # 2) -> Z.abs (k - l) <= 2 ^ 53 ->
  repr (a - b)%f64 (k - l # 2).
Proof.
  intros Ha Hb Hkl.
  assert (Heq : ((k # 2) - (l # 2) == k - l # 2)%Q)
    by (unfold Qeq, Qminus, Qplus, Qopp; cbn [Qnum Qden]; lia).
  apply repr_proper with ((k # 2) - (l # 2))%Q; [| exact Heq].
  apply repr_sub; [assumption .. |]. now apply (half_int_intro _ (k - l)).
Qed.

Lemma repr_h_mul_1 (a b : F) (k : Z) :
  repr a (k # 2) -> repr b 1%Q -> Z.abs k <= 2 ^ 53 -> repr (a * b)%f64 (k # 2).
Proof.
  intros Ha Hb Hk.
  assert (Heq : ((k # 2) * 1 == k # 2)%Q) by apply Qmult_1_r.
  apply repr_proper with ((k # 2) * 1)%Q; [| exact Heq].
  apply repr_mul; [assumption .. |]. now apply (half_int_intro _ k).
Qed.

Lemma repr_h_mul_0 (a b : F) (k : Z) :
  repr a (k # 2) -> repr b 0%Q -> repr (a * b)%f64 (0 # 2).
Proof.
  intros Ha Hb.
  assert (Heq : ((k # 2) * 0 == 0 # 2)%Q)
    by (unfold Qeq, Qmult; cbn [Qnum Qden]; lia).
  apply repr_proper with ((k # 2) * 0)%Q; [| exact Heq].
  apply repr_mul; [assumption .. |]. apply (half_int_intro _ 0); [lia | exact Heq].
Qed.

Lemma repr_half (n : Z) :
  Z.abs n <= 2 ^ 52 -> repr (f_of_int n / f_of_int 2)%f64 (n # 2).
Proof.
  intros Hn.
  assert (Heq : (inject_Z n / inject_Z 2 == n # 2)%Q)
    by (unfold Qeq, Qdiv, Qmult, Qinv, inject_Z; cbn [Qnum Qden]; lia).
  apply repr_proper with (inject_Z n / inject_Z 2)%Q; [| exact Heq].
  apply repr_div; [apply repr_of_int; lia .. | discriminate |].
  apply (half_int_intro _ n); [lia | exact Heq].
Qed.

(** The angle of the inverse rotation when [rotationDegrees] is zero. *)
Lemma repr_rad_0 (angle : F) :
  repr angle 0%Q -> repr (- (angle * math_Pi / f_of_int 180))%f64 0%Q.
Proof.
  intros Ha. destruct repr_Pi as [q Hq].
  assert (H0 : (0 * q == 0)%Q) by apply Qmult_0_l.
  assert (Hm : repr (angle * math_Pi)%f64 0%Q).
  { apply repr_proper with (0 * q)%Q; [| exact H0].
    apply repr_mul; [assumption .. |]. apply (half_int_intro _ 0); [lia |].
    rewrite H0. reflexivity. }
  assert (H1 : (0 / inject_Z 180 == 0)%Q) by reflexivity.
  assert (Hd : repr (angle * math_Pi / f_of_int 180)%f64 0%Q).
  { apply repr_proper with (0 / inject_Z 180)%Q; [| exact H1].
    apply repr_div; [assumption | apply repr_of_int; lia | discriminate |].
    apply (half_int_intro _ 0); [lia | reflexivity]. }
  apply repr_proper with (- 0)%Q; [now apply repr_neg | reflexivity].
Qed.

Lemma repr_h_le_0 (a : F) (k : Z) :
  repr a (k # 2) -> (f_of_int 0 <=? a)%f64 = (0 <=? k).
Proof.
  intros Ha. rewrite (repr_le _ _ (inject_Z 0) (k # 2)); [| apply repr_of_int; lia | exact Ha].
  unfold Qle_bool, inject_Z. cbn [Qnum Qden]. now rewrite Z.mul_1_r, Z.mul_0_l.
Qed.

Lemma repr_h_lt (a : F) (k n : Z) :
  repr a (k # 2) -> Z.abs n <= 2 ^ 53 -> (a <? f_of_int n)%f64 = (k <? 2 * n).
Proof.
  intros Ha Hn. rewrite (repr_lt _ _ (k # 2) (inject_Z n)); [| exact Ha | now apply repr_of_int].
  unfold Qle_bool, inject_Z. cbn [Qnum Qden]. rewrite Z.mul_1_r.
  destruct (Z.leb_spec (n * 2) k), (Z.ltb_spec k (2 * n)); cbn; lia.
Qed.

Lemma repr_h_to_int (a : F) (k : Z) :
  repr a (k # 2) -> 0 <= k <= 2 ^ 53 -> f_to_int a = k / 2.
Proof.
  intros Ha Hk. rewrite (repr_to_int _ _ Ha).
  - unfold Qtrunc, Qle_bool, Qfloor. cbn [Qnum Qden].
    rewrite Z.mul_1_r, Z.mul_0_l. destruct (Z.leb_spec 0 k); [reflexivity | lia].
  - rewrite Qabs_pos by (unfold Qle; cbn [Qnum Qden]; lia).
    unfold Qle, inject_Z. cbn [Qnum Qden]. lia.
Qed.

(** One coordinate of the source point when the rotation is the identity:
    [(u - tu/2) * 1 - (v - tv/2) * 0 + cu/2], and the same with a sum. *)
Lemma repr_source (one zero : F) (u tu cu v tv : Z) :
  repr one 1%Q -> repr zero 0%Q ->
  0 <= u <= 2 ^ 50 -> 0 <= tu <= 2 ^ 50 -> 0 <= cu <= 2 ^ 50 ->
  0 <= v <= 2 ^ 50 -> 0 <= tv <= 2 ^ 50 ->
  repr ((f_of_int u - f_of_int tu / f_of_int 2) * one
        - (f_of_int v - f_of_int tv / f_of_int 2) * zero
        + f_of_int cu / f_of_int 2)%f64 (2 * u - tu + cu # 2)
  /\ repr ((f_of_int v - f_of_int tv / f_of_int 2) * zero
           + (f_of_int u - f_of_int tu / f_of_int 2) * one
           + f_of_int cu / f_of_int 2)%f64 (2 * u - tu + cu # 2).
Proof.
  intros H1 H0 Hu Htu Hcu Hv Htv.
  assert (Hdu : repr (f_of_int u - f_of_int tu / f_of_int 2)%f64 (2 * u - tu # 2)).
  { apply repr_h_sub; [apply repr_int | apply repr_half |]; lia. }
  assert (Hdv : repr (f_of_int v - f_of_int tv / f_of_int 2)%f64 (2 * v - tv # 2)).
  { apply repr_h_sub; [apply repr_int | apply repr_half |]; lia. }
  assert (Hm1 := repr_h_mul_1 _ _ _ Hdu H1 ltac:(lia)).
  assert (Hm0 := repr_h_mul_0 _ _ _ Hdv H0).
  assert (Hc := repr_half cu ltac:(lia)).
  split.
  - apply repr_h_add; [| exact Hc | lia].
    replace (2 * u - tu) with (2 * u - tu - 0) by lia.
    apply repr_h_sub; [exact Hm1 | exact Hm0 | lia].
  - apply repr_h_add; [| exact Hc | lia].
    replace (2 * u - tu) with (0 + (2 * u - tu)) by lia.
    apply repr_h_add; [exact Hm0 | exact Hm1 | lia].
Qed.

End Exactness.

(** ** The canvas side *)

(** [spec_canvasSize] is the least [c >= 0] with [sqrt(w² + h²) * 5/4 <= c],
    that is, with [25 (w² + h²) <= (4 c)²]. *)
Lemma spec_canvasSize_least (w h : Z) :
  let n := w * w + h * h in
  let c := spec_canvasSize w h in
  0 <= c /\ 25 * n <= 16 * c * c
  /\ forall c', 0 <= c' -> 25 * n <= 16 * c' * c' -> c <= c'.
Proof.
  cbv zeta. unfold spec_canvasSize.
  set (n := w * w + h * h). assert (Hn : 0 <= n) by (unfold n; nia).
  set (r := Z.sqrt_up (25 * n)).
  assert (Hr : 0 <= r) by apply Z.sqrt_up_nonneg.
  pose proof (Z.div_mod (r + 3) 4 ltac:(lia)) as Hdm.
  pose proof (Z.mod_pos_bound (r + 3) 4 ltac:(lia)) as Hmod.
  set (c := (r + 3) / 4) in *.
  destruct (Z.eq_dec n 0) as [Hz|Hnz].
  - assert (r = 0) as Hr0 by (unfold r; rewrite Hz; reflexivity).
    assert (c = 0) by lia. split; [lia | split; [nia | intros; lia]].
  - pose proof (Z.sqrt_up_spec (25 * n) ltac:(lia)) as [Hlo Hhi]. fold r in Hlo, Hhi.
    unfold Z.pred in Hlo. split; [lia | split; [nia |]].
    intros c' Hc' Hle. assert (r <= 4 * c') by nia. lia.
Qed.

Section CanvasSize.

Context {F : Type} `{FE : Float64Exact F}.

Lemma canvasSizeOf_exact (w h : Z) :
  0 <= w -> 0 <= h -> w * w + h * h < 2 ^ 52 ->
  canvasSizeOf w h = Z.sqrt (w * w + h * h) * 5 / 4.
Proof.
  intros Hw Hh Hn. unfold canvasSizeOf.
  assert (Hri : forall m, 0 <= m < 2 ^ 52 -> GoInt.in_range m)
    by (unfold GoInt.in_range, GoInt.min_int, GoInt.max_int; lia).
  unfold GoInt.add. unfold GoInt.mul at 2 3.
  rewrite (wrap_in_range (w * w)), (wrap_in_range (h * h)) by (apply Hri; nia).
  rewrite (wrap_in_range (w * w + h * h)) by (apply Hri; nia).
  rewrite (to_int_Sqrt _ (w * w + h * h)); [| apply repr_of_int; nia | nia].
  set (k := Z.sqrt (w * w + h * h)).
  assert (Hk : 0 <= k <= 2 ^ 60).
  { split; [apply Z.sqrt_nonneg |].
    pose proof (Z.sqrt_le_lin (w * w + h * h) ltac:(nia)) as Hs. fold k in Hs. lia. }
  apply quo_mul_pos; lia.
Qed.

(** C1 (as the code has it).  The side of the canvas is the whole part of
    the diagonal, times 5, divided by 4 with the remainder dropped:
    [floor(floor(sqrt(w² + h²)) * 5 / 4)].  It is never more than
    [ceil(sqrt(w² + h²) * 5/4)] and falls short of it by at most 2. *)
Theorem canvas_side (w h : Z) :
  0 <= w -> 0 <= h -> w * w + h * h < 2 ^ 52 ->
  canvasSizeOf w h = Z.sqrt (w * w + h * h) * 5 / 4
  /\ spec_canvasSize w h - 2 <= canvasSizeOf w h <= spec_canvasSize w h.
Proof.
  intros Hw Hh Hn. rewrite canvasSizeOf_exact by assumption.
  split; [reflexivity |].
  destruct (spec_canvasSize_least w h) as (Hc0 & Hc & Hleast).
  set (n := w * w + h * h) in *. set (c := spec_canvasSize w h) in *.
  assert (H0 : 0 <= n) by (unfold n; nia).
  pose proof (Z.sqrt_spec n H0) as [Hlo Hhi].
  pose proof (Z.sqrt_nonneg n) as Hk. set (k := Z.sqrt n) in *.
  pose proof (Z.div_mod (k * 5) 4 ltac:(lia)) as Hdm.
  pose proof (Z.mod_pos_bound (k * 5) 4 ltac:(lia)) as Hmod.
  set (s := k * 5 / 4) in *. unfold Z.succ in Hhi.
  split.
  - apply Z.le_sub_le_add_r. apply Hleast; [lia | nia].
  - destruct (Z.le_gt_cases s c) as [|Hgt]; [assumption | exfalso].
    assert (c + 1 <= s) by lia. nia.
Qed.

End CanvasSize.

(** ** The identity rotation *)

(** The offset of the specification, [cw/2 - tw/2] on whole pixels, against
    that of the code: one more when the canvas dimension is even and the
    target dimension odd, the same otherwise. *)
Lemma centred_offset_int_halves (cw tw : Z) :
  0 <= tw <= cw ->
  (cw - tw) / 2 = cw / 2 - tw / 2 - (if Z.even cw && Z.odd tw then 1 else 0).
Proof.
  intros H. rewrite (Zeven_mod cw), (Zodd_mod tw).
  pose proof (Z.div_mod cw 2 ltac:(lia)).
  pose proof (Z.mod_pos_bound cw 2 ltac:(lia)).
  pose proof (Z.div_mod tw 2 ltac:(lia)).
  pose proof (Z.mod_pos_bound tw 2 ltac:(lia)).
  pose proof (Z.div_mod (cw - tw) 2 ltac:(lia)).
  pose proof (Z.mod_pos_bound (cw - tw) 2 ltac:(lia)).
  destruct (Z.eqb_spec (cw mod 2) 0), (Z.eqb_spec (tw mod 2) 1); cbn; lia.
Qed.

Section Crop.

Context {F : Type} `{FE : Float64Exact F}.

(** With a rotation of zero degrees and a canvas at least as large as the
    target, the pixel [(x, y)] of the result is the pixel of the canvas at
    the source point [(x + cw/2 - tw/2, y + ch/2 - th/2)] of [rotateAndCrop]
    (exact halves, the sum then truncated), which is
    [(x + (cw - tw) / 2, y + (ch - th) / 2)]. *)
Lemma identity_rotation_source (img : RGBA) (rotationDegrees : F)
    (targetWidth targetHeight : Z) :
  repr rotationDegrees 0%Q ->
  0 <= targetWidth <= Dx (Rect img) -> 0 <= targetHeight <= Dy (Rect img) ->
  Dx (Rect img) <= 2 ^ 50 -> Dy (Rect img) <= 2 ^ 50 ->
  forall x y,
    0 <= x < targetWidth -> 0 <= y < targetHeight ->
    let cw := Dx (Rect img) in
    let ch := Dy (Rect img) in
    let srcX := (inject_Z x + inject_Z cw / 2 - inject_Z targetWidth / 2)%Q in
    let srcY := (inject_Z y + inject_Z ch / 2 - inject_Z targetHeight / 2)%Q in
    RGBA_At (rotateAndCrop img rotationDegrees targetWidth targetHeight) x y =
      RGBA_At img (Qtrunc srcX) (Qtrunc srcY)
    /\ Qtrunc srcX = x + (cw - targetWidth) / 2
    /\ Qtrunc srcY = y + (ch - targetHeight) / 2.
Proof.
  intros Hdeg Htw Hth Hcw Hch x y Hx Hy. cbv zeta.
  set (cw := Dx (Rect img)) in *. set (ch := Dy (Rect img)) in *.
  assert (Htr : forall u cu tu, 0 <= u < tu -> tu <= cu ->
            Qtrunc (inject_Z u + inject_Z cu / 2 - inject_Z tu / 2)
            = u + (cu - tu) / 2 /\ (2 * u - tu + cu) / 2 = u + (cu - tu) / 2).
  { intros u cu tu Hu Hle.
    assert (Hd : (2 * u - tu + cu) / 2 = u + (cu - tu) / 2).
    { replace (2 * u - tu + cu) with ((cu - tu) + u * 2) by lia.
      rewrite Z.div_add by lia. lia. }
    split; [| exact Hd]. rewrite <- Hd.
    assert (Heq : (inject_Z u + inject_Z cu / 2 - inject_Z tu / 2
                   == 2 * u - tu + cu # 2)%Q).
    { unfold Qeq, Qminus, Qplus, Qopp, Qdiv, Qmult, Qinv, inject_Z.
      cbn [Qnum Qden]. lia. }
    unfold Qtrunc. rewrite (Qleb_comp _ _ (Qeq_refl 0) _ _ Heq).
    rewrite (Qfloor_comp _ _ Heq).
    unfold Qle_bool, Qfloor. cbn [Qnum Qden]. rewrite Z.mul_1_r, Z.mul_0_l.
    destruct (Z.leb_spec 0 (2 * u - tu + cu)); [reflexivity | lia]. }
  destruct (Htr x cw targetWidth Hx ltac:(lia)) as [HtX HdX].
  destruct (Htr y ch targetHeight Hy ltac:(lia)) as [HtY HdY].
  split; [| split; assumption]. rewrite HtX, HtY.
  destruct (rotateAndCrop_pixels img rotationDegrees targetWidth targetHeight
              ltac:(lia) ltac:(lia)) as (_ & _ & Hpx).
  rewrite (Hpx x y Hx Hy). clear Hpx. fold cw ch.
  pose proof (repr_rad_0 rotationDegrees Hdeg) as Hrad.
  pose proof (repr_Cos_0 _ Hrad) as Hcos. pose proof (repr_Sin_0 _ Hrad) as Hsin.
  destruct (repr_source _ _ x targetWidth cw y targetHeight Hcos Hsin
              ltac:(lia) ltac:(lia) ltac:(lia) ltac:(lia) ltac:(lia)) as [HsX _].
  destruct (repr_source _ _ y targetHeight ch x targetWidth Hcos Hsin
              ltac:(lia) ltac:(lia) ltac:(lia) ltac:(lia) ltac:(lia)) as [_ HsY].
  rewrite (repr_h_le_0 _ _ HsX), (repr_h_le_0 _ _ HsY).
  rewrite (repr_h_lt _ _ cw HsX) by lia. rewrite (repr_h_lt _ _ ch HsY) by lia.
  rewrite (repr_h_to_int _ _ HsX) by lia. rewrite (repr_h_to_int _ _ HsY) by lia.
  rewrite HdX, HdY.
  destruct (Z.leb_spec 0 (2 * x - targetWidth + cw)); [| lia].
  destruct (Z.ltb_spec (2 * x - targetWidth + cw) (2 * cw)); [| lia].
  destruct (Z.leb_spec 0 (2 * y - targetHeight + ch)); [| lia].
  destruct (Z.ltb_spec (2 * y - targetHeight + ch) (2 * ch)); [| lia].
  reflexivity.
Qed.

(** C4 (as the code has it).  With a rotation of zero degrees and a canvas
    at least as large as the target, the result is a pure crop: its pixel
    [(x, y)] is the pixel of the canvas at
    [(x + (cw - tw) div 2, y + (ch - th) div 2)], the difference of the
    sides halved and rounded down.  This offset is that of the
    specification, [cw/2 - tw/2] on whole pixels, but when the canvas side
    is even and the target side odd: it is then one less. *)
Theorem identity_rotation_is_centred_crop (img : RGBA) (rotationDegrees : F)
    (targetWidth targetHeight : Z) :
  repr rotationDegrees 0%Q ->
  0 <= targetWidth <= Dx (Rect img) -> 0 <= targetHeight <= Dy (Rect img) ->
  Dx (Rect img) <= 2 ^ 50 -> Dy (Rect img) <= 2 ^ 50 ->
  let cw := Dx (Rect img) in
  let ch := Dy (Rect img) in
  (forall x y,
      0 <= x < targetWidth -> 0 <= y < targetHeight ->
      RGBA_At (rotateAndCrop img rotationDegrees targetWidth targetHeight) x y =
        RGBA_At img (x + (cw - targetWidth) / 2) (y + (ch - targetHeight) / 2))
  /\ (cw - targetWidth) / 2 =
       spec_cropOffset cw targetWidth
       - (if Z.even cw && Z.odd targetWidth then 1 else 0)
  /\ (ch - targetHeight) / 2 =
       spec_cropOffset ch targetHeight
       - (if Z.even ch && Z.odd targetHeight then 1 else 0).
Proof.
  intros Hdeg Htw Hth Hcw Hch cw ch. split; [| split].
  - intros x y Hx Hy.
    destruct (identity_rotation_source img rotationDegrees targetWidth targetHeight
                Hdeg Htw Hth Hcw Hch x y Hx Hy) as (Hpx & HX & HY).
    rewrite Hpx, HX, HY. reflexivity.
  - apply centred_offset_int_halves. exact Htw.
  - apply centred_offset_int_halves. exact Hth.
Qed.

End Crop.

(** ** The reference implementation satisfies the exactness laws *)

Module ExactLaws.

Import Exact.

Lemma Qtrunc_comp (p q : Q) : (p == q)%Q -> Qtrunc p = Qtrunc q.
Proof.
  intros Hpq. unfold Qtrunc.
  rewrite (Qleb_comp _ _ (Qeq_refl 0) _ _ Hpq).
  now rewrite (Qfloor_comp _ _ Hpq), (Qceiling_comp _ _ Hpq).
Qed.

Lemma sqrt_scaled (n t : Z) :
  0 <= n -> 0 < t -> Z.sqrt (n * (t * t)) / t = Z.sqrt n.
Proof.
  intros Hn Ht.
  pose proof (Z.sqrt_spec n Hn) as [Hlo Hhi]. pose proof (Z.sqrt_nonneg n) as Hs.
  set (s := Z.sqrt n) in *. unfold Z.succ in Hhi.
  pose proof (Z.sqrt_spec (n * (t * t)) ltac:(nia)) as [Hmlo Hmhi].
  pose proof (Z.sqrt_nonneg (n * (t * t))) as Hm.
  set (m := Z.sqrt (n * (t * t))) in *. unfold Z.succ in Hmhi.
  assert (s * t <= m) by nia.
  assert (m < (s + 1) * t) by nia.
  symmetry. apply (Z.div_unique_pos m t s (m - s * t)); lia.
Qed.

Lemma to_int_sqrt (a : Q) (n : Z) :
  (a == inject_Z n)%Q -> 0 <= n < 2 ^ 52 -> Qtrunc (sqrt a) = Z.sqrt n.
Proof.
  intros Ha Hn. unfold sqrt. rewrite (Qtrunc_comp _ _ (Qred_correct _)).
  assert (Hfl : Qfloor (a * inject_Z (4 ^ 64)) = n * (2 ^ 64 * 2 ^ 64)).
  { rewrite (Qfloor_comp _ (inject_Z (n * 4 ^ 64))).
    - rewrite Qfloor_Z. reflexivity.
    - rewrite Ha, inject_Z_mult. reflexivity. }
  rewrite Hfl. unfold Qtrunc, Qle_bool, Qfloor. cbn [Qnum Qden].
  rewrite Z.mul_1_r, Z.mul_0_l.
  pose proof (Z.sqrt_nonneg (n * (2 ^ 64 * 2 ^ 64))) as Hm.
  destruct (Z.leb_spec 0 (Z.sqrt (n * (2 ^ 64 * 2 ^ 64)))); [| lia].
  change (Z.pos (2 ^ 64)) with (2 ^ 64).
  apply sqrt_scaled; lia.
Qed.

Lemma cos_0 (a : Q) : (a == 0)%Q -> (cos a == 1)%Q.
Proof. intros Ha. unfold cos. rewrite Qred_correct, Ha. reflexivity. Qed.

Lemma sin_0 (a : Q) : (a == 0)%Q -> (sin a == 0)%Q.
Proof. intros Ha. unfold sin. rewrite Qred_correct, Ha. reflexivity. Qed.

Lemma add_exact (a b p q : Q) :
  (a == p)%Q -> (b == q)%Q -> half_int (p + q) -> (Qred (a + b) == p + q)%Q.
Proof. intros Ha Hb _. now rewrite Qred_correct, Ha, Hb. Qed.

Lemma sub_exact (a b p q : Q) :
  (a == p)%Q -> (b == q)%Q -> half_int (p - q) -> (Qred (a - b) == p - q)%Q.
Proof. intros Ha Hb _. now rewrite Qred_correct, Ha, Hb. Qed.

Lemma mul_exact (a b p q : Q) :
  (a == p)%Q -> (b == q)%Q -> half_int (p * q) -> (Qred (a * b) == p * q)%Q.
Proof. intros Ha Hb _. now rewrite Qred_correct, Ha, Hb. Qed.

Lemma div_exact (a b p q : Q) :
  (a == p)%Q -> (b == q)%Q -> ~ (q == 0)%Q -> half_int (p / q) ->
  (Qred (a / b) == p / q)%Q.
Proof. intros Ha Hb _ _. now rewrite Qred_correct, Ha, Hb. Qed.

Lemma neg_exact (a p : Q) : (a == p)%Q -> (Qred (- a) == - p)%Q.
Proof. intros Ha. now rewrite Qred_correct, Ha. Qed.

Lemma le_exact (a b p q : Q) :
  (a == p)%Q -> (b == q)%Q -> Qle_bool a b = Qle_bool p q.
Proof. intros Ha Hb. now apply Qleb_comp. Qed.

Lemma lt_exact (a b p q : Q) :
  (a == p)%Q -> (b == q)%Q -> negb (Qle_bool b a) = negb (Qle_bool q p).
Proof. intros Ha Hb. f_equal. now apply Qleb_comp. Qed.

#[export] Instance laws : Float64Exact Q := {|
  repr a q := (a == q)%Q;
  repr_proper a p q := Qeq_trans a p q;
  repr_of_int n _ := Qeq_refl (inject_Z n);
  repr_add := add_exact;
  repr_sub := sub_exact;
  repr_mul := mul_exact;
  repr_div := div_exact;
  repr_neg := neg_exact;
  repr_le := le_exact;
  repr_lt := lt_exact;
  repr_to_int a p H _ := Qtrunc_comp a p H;
  repr_Pi := ex_intro _ pi (Qeq_refl pi);
  repr_Cos_0 := cos_0;
  repr_Sin_0 := sin_0;
  to_int_Sqrt := to_int_sqrt
|}.

End ExactLaws.

(** ** The theorems at concrete inputs *)

Import Exact ExactLaws Fixture.

(** The side of the canvas for a 1920 by 1080 screen is 2752: neither
    [ceil(sqrt(w² + h²) * 5/4) = 2754] nor within one of it. *)
Lemma canvas_side_1920_1080 :
  canvasSizeOf (F := Q) 1920 1080 = 2752
  /\ spec_canvasSize 1920 1080 = 2754
  /\ canvasSizeOf (F := Q) 1920 1080 <> spec_canvasSize 1920 1080
  /\ ~ (2754 - 1 <= canvasSizeOf (F := Q) 1920 1080 <= 2754 + 1).
Proof.
  assert (H1 : canvasSizeOf (F := Q) 1920 1080 = 2752) by (vm_compute; reflexivity).
  assert (H2 : spec_canvasSize 1920 1080 = 2754) by (vm_compute; reflexivity).
  rewrite H1, H2. repeat split; lia.
Qed.

Lemma canvas_side_witness :
  canvasSizeOf (F := Q) 1920 1080 = Z.sqrt (1920 * 1920 + 1080 * 1080) * 5 / 4
  /\ spec_canvasSize 1920 1080 - 2 <= canvasSizeOf (F := Q) 1920 1080
     <= spec_canvasSize 1920 1080.
Proof. apply (canvas_side (F := Q) 1920 1080); lia. Defined.

(** [watermarkConfig] with [spacingX = 0] on a 1920 by 1080 screen: the
    first anchor is on the canvas and is drawn, and the function never
    comes to an end (in particular, it reports no error). *)
Lemma zero_spacing_counterexample :
  drawCalls (F := Q) "CompanyName bob     " 2752
    (f_of_int 0 * math_Pi / f_of_int 180)%f64 [(-1376, -1376)]
  = [("CompanyName bob     "%string, mkPoint 0 0)]
  /\ ~ (exists fuel,
          createWatermarkImage zeroSpacingX 1920 1080 "bob" fuel <> OutOfFuel).
Proof.
  split; [vm_compute; reflexivity |].
  intros [fuel Hfuel]. apply Hfuel.
  apply createWatermarkImage_stuck.
  - discriminate.
  - vm_compute. discriminate.
  - assert (H : canvasSizeOf (F := Q) (GoInt.wrap 1920) (GoInt.wrap 1080) = 2752)
      by (vm_compute; reflexivity).
    rewrite H. lia.
  - left. reflexivity.
Qed.

Lemma spacing_is_not_validated_witness :
  createWatermarkImage zeroSpacingX 1920 1080 "bob" 1000 <> Fatal
  /\ createWatermarkImage zeroSpacingX 1920 1080 "bob" 1000 = OutOfFuel.
Proof.
  assert (Hfont : truetype_Parse (fontData zeroSpacingX) <> None) by discriminate.
  destruct (spacing_is_not_validated zeroSpacingX 1920 1080 "bob" Hfont)
    as [Hno Hstuck].
  split; [apply Hno |]. apply Hstuck.
  - vm_compute. discriminate.
  - assert (H : canvasSizeOf (F := Q) (GoInt.wrap 1920) (GoInt.wrap 1080) = 2752)
      by (vm_compute; reflexivity).
    rewrite H. lia.
  - left. reflexivity.
Defined.

Lemma rotateAndCrop_spec_witness :
  Rect (rotateAndCrop dot (f_of_int 0) 1 1) = mkRectangle (mkPoint 0 0) (mkPoint 1 1)
  /\ RGBA_At (rotateAndCrop dot (f_of_int 0) 1 1) 0 0 = color_Black.
Proof.
  destruct (rotateAndCrop_spec (F := Q) dot (f_of_int 0) 1 1 ltac:(lia) ltac:(lia))
    as (HR & _ & Hpx).
  split; [exact HR |].
  rewrite (Hpx 0 0 ltac:(lia) ltac:(lia)). vm_compute. reflexivity.
Defined.

Lemma identity_rotation_witness :
  RGBA_At (rotateAndCrop dot (f_of_int 0) 1 1) 0 0 = RGBA_At dot 1 1
  /\ (Dx (Rect dot) - 1) / 2 = spec_cropOffset (Dx (Rect dot)) 1 - 1.
Proof.
  assert (H0 : repr (f_of_int 0 : Q) 0%Q) by reflexivity.
  assert (Hw : 0 <= 1 <= Dx (Rect dot)) by (vm_compute; split; discriminate).
  assert (Hh : 0 <= 1 <= Dy (Rect dot)) by (vm_compute; split; discriminate).
  assert (Hcw : Dx (Rect dot) <= 2 ^ 50) by (vm_compute; discriminate).
  assert (Hch : Dy (Rect dot) <= 2 ^ 50) by (vm_compute; discriminate).
  destruct (identity_rotation_is_centred_crop dot (f_of_int 0) 1 1 H0 Hw Hh Hcw Hch)
    as (Hpx & HX & _).
  split; [| exact HX].
  rewrite (Hpx 0 0 ltac:(lia) ltac:(lia)). reflexivity.
Defined.

(** A 1 by 1 crop of the 4 by 4 canvas [dot] at zero degrees: the code
    reads the canvas at (1, 1), the black pixel; the offset of the
    specification, [4/2 - 1/2 = 2], points at (2, 2), which is
    transparent. *)
Lemma identity_rotation_offset_counterexample :
  RGBA_At (rotateAndCrop dot (f_of_int 0) 1 1) 0 0 = color_Black
  /\ spec_cropOffset (Dx (Rect dot)) 1 = 2
  /\ RGBA_At dot (0 + spec_cropOffset (Dx (Rect dot)) 1)
                 (0 + spec_cropOffset (Dy (Rect dot)) 1) = color_Transparent
  /\ RGBA_At (rotateAndCrop dot (f_of_int 0) 1 1) 0 0
     <> RGBA_At dot (0 + spec_cropOffset (Dx (Rect dot)) 1)
                    (0 + spec_cropOffset (Dy (Rect dot)) 1).
Proof.
  assert (H1 : RGBA_At (rotateAndCrop dot (f_of_int 0) 1 1) 0 0 = color_Black)
    by (vm_compute; reflexivity).
  assert (H2 : RGBA_At dot (0 + spec_cropOffset (Dx (Rect dot)) 1)
                 (0 + spec_cropOffset (Dy (Rect dot)) 1) = color_Transparent)
    by (vm_compute; reflexivity).
  split; [exact H1 |]. split; [vm_compute; reflexivity |]. split; [exact H2 |].
  rewrite H1, H2. discriminate.
Qed.

Lemma tile_anchor_range_witness :
  exists st,
    drawTiles 10 context6 "w" 6 (f_of_int 0) (4, 2) (blankCanvas 6, []) = Ok st.
Proof.
  eexists.
  apply (tile_anchor_range context6 "w" 6 (f_of_int 0) 4 2 10 (blankCanvas 6, []));
    [lia | lia | lia | vm_compute; lia | vm_compute; lia].
Defined.

Lemma draw_only_on_canvas_witness :
  exists img log,
    drawTiles 10 context6 "w" 6 (f_of_int 0) (4, 2) (blankCanvas 6, []) =
      Ok (img, log)
    /\ img = replay context6 log (blankCanvas 6)
    /\ length log = 6%nat
    /\ RGBA_At img 4 2 = color_Black
    /\ RGBA_At img 1 1 = color_Transparent.
Proof.
  destruct (draw_only_on_canvas context6 "w" 6 (f_of_int 0) 4 2 10 (blankCanvas 6, []))
    as [Hrun _]; [lia | lia | lia | vm_compute; lia | vm_compute; lia |].
  cbv zeta in Hrun. eexists _, _. split; [exact Hrun |].
  split; [reflexivity |]. vm_compute. repeat split.
Defined.

Lemma effective_spacing_witness :
  tilePitch (watermarkConfig (F := Q) [0]) = (333, 166)
  /\ tilePitch (mkConfig (f_of_int 0 : Q) (f_of_int 320) (f_of_int 20) 5 16777215 7
                  300 (- 10) [0]) = (400, - 13).
Proof.
  split.
  - destruct (effective_spacing_is_four_thirds (watermarkConfig (F := Q) [0]) 1920 1080
                "bob") as (H & _); [vm_compute; discriminate .. |].
    rewrite H. vm_compute. reflexivity.
  - destruct (effective_spacing_is_four_thirds
                (mkConfig (f_of_int 0 : Q) (f_of_int 320) (f_of_int 20) 5 16777215 7
                   300 (- 10) [0]) 1920 1080 "bob") as (H & _);
      [vm_compute; discriminate .. |].
    rewrite H. vm_compute. reflexivity.
Defined.

(** The pitches of [watermarkConfig] are 333 and 166, neither of them 4/3 of
    the spacing (1000/3 and 500/3); and at a spacing of 2^62 the product
    [s * 4] wraps round to 0. *)
Lemma effective_spacing_counterexample :
  tilePitch (watermarkConfig (F := Q) [0]) = (333, 166)
  /\ ~ (inject_Z 333 == spec_effectiveSpacing 250)%Q
  /\ ~ (inject_Z 166 == spec_effectiveSpacing 125)%Q
  /\ tilePitch (mkConfig (f_of_int 0 : Q) (f_of_int 320) (f_of_int 20) 5 16777215 7
                  (2 ^ 62) 125 [0]) = (0, 166).
Proof.
  split; [vm_compute; reflexivity |].
  split; [vm_compute; discriminate |].
  split; [vm_compute; discriminate |].
  vm_compute. reflexivity.
Qed.

(** ** Runs *)

(** binary64 itself: the root of 1920² + 1080² is between 2202 and 2203, and
    the source abscissa of pixel 0 of a 1-wide crop of a 4-wide canvas is
    3/2, exactly. *)
Example binary64_sqrt_1920_1080 :
  Binary64.truncates_to
    (PrimFloat.sqrt (Binary64.of_int (1920 * 1920 + 1080 * 1080))) 2202 = true.
Proof. vm_compute. reflexivity. Qed.

(** The hardest case of the law on roots: the largest argument, one short
    of a square. *)
Example binary64_sqrt_below_2_52 :
  Binary64.truncates_to (PrimFloat.sqrt (Binary64.of_int (2 ^ 52 - 1))) (2 ^ 26 - 1)
  = true.
Proof. vm_compute. reflexivity. Qed.

Example binary64_oldX_dot :
  PrimFloat.eqb (Binary64.oldX_at_zero 0 0 1 1 4)
    (PrimFloat.div (Binary64.of_int 3) (Binary64.of_int 2)) = true.
Proof. vm_compute. reflexivity. Qed.

(** A whole run on an 8 by 6 screen, spacing (3, 2), no rotation: the canvas
    has side 12, the loops end, 18 tiles are drawn and the result is 8 by
    6. *)
Example run_8_by_6 :
  let cfg := mkConfig (f_of_int 0) (f_of_int 0) (f_of_int 20) 5 16777215 7 3 2 [0] in
  canvasSizeOf (F := Q) 8 6 = 12
  /\ (exists img log,
        synthesize cfg 8 6 "bob" 20 = Ok (img, log) /\ length log = 18%nat)
  /\ (exists final,
        createWatermarkImage cfg 8 6 "bob" 20 = Ok final
        /\ Rect final = mkRectangle (mkPoint 0 0) (mkPoint 8 6)).
Proof.
  cbv zeta. split; [vm_compute; reflexivity |]. split.
  - destruct (synthesize _ 8 6 "bob" 20) as [[img log]| | |] eqn:Hrun;
      try (vm_compute in Hrun; discriminate).
    exists img, log. split; [reflexivity |].
    apply (f_equal (fun o => match o with Ok st => length (snd st) | _ => O end)) in Hrun.
    vm_compute in Hrun. symmetry. exact Hrun.
  - destruct (createWatermarkImage _ 8 6 "bob" 20) as [final| | |] eqn:Hrun;
      try (vm_compute in Hrun; discriminate).
    exists final. split; [reflexivity |].
    apply (f_equal (fun o => match o with Ok p => Rect p | _ => Rect final end)) in Hrun.
    vm_compute in Hrun. symmetry. exact Hrun.
Qed.

(** * Further properties *)

(** ** [extractUsername]: what the result can and cannot be *)

Section NameFacts.

Import GoStrings.

Lemma absent_app (c : ascii) (a b : string) :
  absent c (String.append a b) <-> absent c a /\ absent c b.
Proof.
  induction a as [|x a IH]; cbn [String.append absent]; [tauto | rewrite IH; tauto].
Qed.

(** A string without [c], or its last occurrence. *)
Lemma split_last (c : ascii) (s : string) :
  absent c s \/ exists a b, s = String.append a (String c b) /\ absent c b.
Proof.
  induction s as [|x s IH]; [left; exact I |].
  destruct IH as [Habs | (a & b & -> & Hb)].
  - destruct (ascii_dec x c) as [->|Hne].
    + right. exists EmptyString, s. auto.
    + left. split; assumption.
  - right. exists (String x a), b. auto.
Qed.

(** A string without [c], or its first occurrence. *)
Lemma split_first (c : ascii) (s : string) :
  absent c s \/ exists a b, s = String.append a (String c b) /\ absent c a.
Proof.
  induction s as [|x s IH]; [left; exact I |].
  destruct (ascii_dec x c) as [->|Hne].
  - right. exists EmptyString, s. split; [reflexivity | exact I].
  - destruct IH as [Habs | (a & b & -> & Ha)].
    + left. split; assumption.
    + right. exists (String x a), b. split; [reflexivity | split; assumption].
Qed.

Lemma extract_after_last (a b : string) :
  absent (ascii_of_nat 92) b ->
  extractUsername (String.append a (String (ascii_of_nat 92) b)) = b.
Proof.
  intros Hb. unfold extractUsername, backslash.
  rewrite (LastIndex_last _ a b Hb).
  pose proof (len_nonneg a).
  destruct (Z.leb_spec 0 (len a)); [apply drop_after | lia].
Qed.

Lemma extract_before_first (a b : string) :
  absent (ascii_of_nat 92) (String.append a (String (ascii_of_nat 64) b)) ->
  absent (ascii_of_nat 64) a ->
  extractUsername (String.append a (String (ascii_of_nat 64) b)) = a.
Proof.
  intros Hs Ha. unfold extractUsername, backslash, at_sign.
  rewrite (LastIndex_absent _ _ Hs). cbn [Z.leb Z.compare].
  rewrite (Index_first _ a b Ha).
  pose proof (len_nonneg a).
  destruct (Z.leb_spec 0 (len a)); [apply take_before | lia].
Qed.

Lemma extract_plain (s : string) :
  absent (ascii_of_nat 92) s -> absent (ascii_of_nat 64) s ->
  extractUsername s = s.
Proof.
  intros Hs Ha. unfold extractUsername, backslash, at_sign.
  now rewrite (LastIndex_absent _ _ Hs), (Index_absent _ _ Ha).
Qed.

(** The three cases of [extractUsername], as a case analysis on its
    argument. *)
Lemma extract_cases (s : string) :
  (exists a b, s = String.append a (String (ascii_of_nat 92) b)
               /\ absent (ascii_of_nat 92) b /\ extractUsername s = b)
  \/ (absent (ascii_of_nat 92) s
      /\ exists a b, s = String.append a (String (ascii_of_nat 64) b)
                     /\ absent (ascii_of_nat 64) a /\ extractUsername s = a)
  \/ (absent (ascii_of_nat 92) s /\ absent (ascii_of_nat 64) s
      /\ extractUsername s = s).
Proof.
  destruct (split_last (ascii_of_nat 92) s) as [Hs | (a & b & -> & Hb)].
  - right. destruct (split_first (ascii_of_nat 64) s) as [Ha | (a & b & -> & Ha)].
    + right. auto using extract_plain.
    + left. split; [assumption |]. exists a, b. auto using extract_before_first.
  - left. exists a, b. auto using extract_after_last.
Qed.

Lemma extract_no_backslash (s : string) :
  absent (ascii_of_nat 92) (extractUsername s).
Proof.
  destruct (extract_cases s)
    as [(a & b & -> & Hb & ->) | [(Hs & a & b & -> & Ha & ->) | (Hs & Ha & ->)]].
  - assumption.
  - apply absent_app in Hs. tauto.
  - assumption.
Qed.

End NameFacts.

(** X1. The result of [extractUsername] never contains a backslash. *)
Theorem extractUsername_no_backslash (s : string) :
  GoStrings.absent (ascii_of_nat 92) (extractUsername s).
Proof. apply extract_no_backslash. Qed.

(** X2. On a name without backslash the result has no '@' either; so two
    passes of [extractUsername] always give a name with neither, which a
    third pass leaves as it is (one pass may leave an '@', as on
    [domain\name@host]). *)
Theorem extractUsername_two_passes :
  (forall s, GoStrings.absent (ascii_of_nat 92) s ->
             GoStrings.absent (ascii_of_nat 64) (extractUsername s))
  /\ (forall s,
        let r := extractUsername (extractUsername s) in
        GoStrings.absent (ascii_of_nat 92) r
        /\ GoStrings.absent (ascii_of_nat 64) r
        /\ extractUsername r = r).
Proof.
  assert (Hone : forall s, GoStrings.absent (ascii_of_nat 92) s ->
                           GoStrings.absent (ascii_of_nat 64) (extractUsername s)).
  { intros s Hs.
    destruct (extract_cases s)
      as [(a & b & -> & Hb & _) | [(_ & a & b & -> & Ha & ->) | (_ & Ha & ->)]].
    - apply absent_app in Hs. cbn in Hs. tauto.
    - assumption.
    - assumption. }
  split; [exact Hone |]. intros s r.
  assert (Hb : GoStrings.absent (ascii_of_nat 92) r)
    by apply extract_no_backslash.
  assert (Ha : GoStrings.absent (ascii_of_nat 64) r).
  { apply Hone. apply extract_no_backslash. }
  auto using extract_plain.
Qed.

(** X3. The result is a piece of the argument: the end of it (after a
    backslash) or the beginning of it (before an '@'). *)
Theorem extractUsername_is_part (s : string) :
  (exists pre, s = String.append pre (extractUsername s))
  \/ (exists post, s = String.append (extractUsername s) post).
Proof.
  destruct (extract_cases s)
    as [(a & b & -> & Hb & ->) | [(Hs & a & b & -> & Ha & ->) | (Hs & Ha & ->)]].
  - left. exists (String.append a backslash). unfold backslash.
    clear. induction a as [|x a IH]; cbn; [reflexivity | now rewrite <- IH].
  - right. eauto.
  - left. exists EmptyString. reflexivity.
Qed.

(** X4. The result is empty exactly when the argument is empty, ends with a
    backslash, or has no backslash and begins with '@'. *)
Theorem extractUsername_empty (s : string) :
  extractUsername s = EmptyString <->
  s = EmptyString
  \/ (exists a, s = String.append a backslash)
  \/ (GoStrings.absent (ascii_of_nat 92) s
      /\ exists b, s = String.append at_sign b).
Proof.
  split.
  - intros Hempty.
    destruct (extract_cases s)
      as [(a & b & -> & Hb & He) | [(Hs & a & b & -> & Ha & He) | (Hs & Ha & He)]];
      rewrite He in Hempty; subst.
    + right. left. exists a. reflexivity.
    + right. right. split; [assumption |]. exists b. reflexivity.
    + left. reflexivity.
  - intros [-> | [(a & ->) | (Hs & b & ->)]].
    + reflexivity.
    + apply (extract_after_last a EmptyString). exact I.
    + apply (extract_before_first EmptyString b); [exact Hs | exact I].
Qed.

(** ** [rotateAndCrop]: where its pixels come from, and degenerate targets *)

Section ResamplerFacts.

Context {F : Type} `{FO : Float64Ops F}.

(** [rotateAndCrop] as a loop of [put]s into the fresh image: every [put]
    writes a pixel read from [img], or nothing. *)
Lemma rotateAndCrop_put (img : RGBA) (angle : F) (targetWidth targetHeight : Z) :
  exists px : Z -> Z -> option color_RGBA,
    (forall x y, px x y = None \/ exists sx sy, px x y = Some (RGBA_At img sx sy))
    /\ rotateAndCrop img angle targetWidth targetHeight =
         for_range 0 targetHeight (fun y d =>
           for_range 0 targetWidth (fun x d => put d x y (px x y)) d)
           (NewRGBA (image_Rect 0 0 targetWidth targetHeight)).
Proof.
  unfold rotateAndCrop, Bounds.
  set (rad := (angle * math_Pi / f_of_int 180)%f64).
  set (w := f_of_int (Dx (Rect img))). set (h := f_of_int (Dy (Rect img))).
  set (src := fun x y : Z =>
    ((f_of_int x - f_of_int targetWidth / f_of_int 2) * math_Cos (- rad)
     - (f_of_int y - f_of_int targetHeight / f_of_int 2) * math_Sin (- rad)
     + w / f_of_int 2,
     (f_of_int x - f_of_int targetWidth / f_of_int 2) * math_Sin (- rad)
     + (f_of_int y - f_of_int targetHeight / f_of_int 2) * math_Cos (- rad)
     + h / f_of_int 2)%f64).
  exists (fun x y : Z =>
    if (f_of_int 0 <=? fst (src x y))%f64 && (fst (src x y) <? w)%f64
       && (f_of_int 0 <=? snd (src x y))%f64 && (snd (src x y) <? h)%f64
    then Some (RGBA_At img (f_to_int (fst (src x y))) (f_to_int (snd (src x y))))
    else None).
  split.
  - intros x y. destruct (_ && _); eauto.
  - apply for_range_ext. intros y t. apply for_range_ext. intros x d.
    unfold src. cbn [fst snd]. destruct (_ && _); reflexivity.
Qed.

Lemma rotateAndCrop_provenance (img : RGBA) (angle : F)
    (targetWidth targetHeight : Z) :
  let final := rotateAndCrop img angle targetWidth targetHeight in
  (forall x y,
      RGBA_At final x y = color_Transparent
      \/ exists sx sy, RGBA_At final x y = RGBA_At img sx sy)
  /\ ((forall sx sy, A (RGBA_At img sx sy) = 0) ->
      forall x y, A (RGBA_At final x y) = 0).
Proof.
  cbv zeta.
  destruct (rotateAndCrop_put img angle targetWidth targetHeight) as (px & Hpx & ->).
  set (dst := NewRGBA (image_Rect 0 0 targetWidth targetHeight)).
  assert (Hwf : well_formed dst)
    by (apply NewRGBA_well_formed; apply image_Rect_Dx_Dy).
  destruct (for_range_put px 0 targetWidth 0 targetHeight dst Hwf) as (_ & _ & Hat).
  assert (Hall : forall x y,
            RGBA_At (for_range 0 targetHeight (fun y d =>
                       for_range 0 targetWidth (fun x d => put d x y (px x y)) d) dst)
              x y = color_Transparent
            \/ exists sx sy,
                RGBA_At (for_range 0 targetHeight (fun y d =>
                           for_range 0 targetWidth (fun x d => put d x y (px x y)) d) dst)
                  x y = RGBA_At img sx sy).
  { intros x y. rewrite Hat.
    destruct (decide _) as [_|_]; [| left; apply RGBA_At_NewRGBA].
    unfold written. destruct (Hpx x y) as [-> | (sx & sy & ->)].
    - left. apply RGBA_At_NewRGBA.
    - destruct (Point_In x y (Rect dst)); [right; eauto | left; reflexivity]. }
  split; [exact Hall |].
  intros Himg x y. destruct (Hall x y) as [-> | (sx & sy & ->)]; [reflexivity | apply Himg].
Qed.

(** X5. [rotateAndCrop] makes no colour of its own: every pixel of the
    result is transparent or is a pixel of [img], whatever the angle and
    the target size; a canvas that is transparent everywhere gives a result
    that is transparent everywhere. *)
Theorem rotateAndCrop_no_new_pixels (img : RGBA) (angle : F)
    (targetWidth targetHeight : Z) :
  let final := rotateAndCrop img angle targetWidth targetHeight in
  (forall x y,
      RGBA_At final x y = color_Transparent
      \/ exists sx sy, RGBA_At final x y = RGBA_At img sx sy)
  /\ ((forall sx sy, A (RGBA_At img sx sy) = 0) ->
      forall x y, A (RGBA_At final x y) = 0).
Proof. apply rotateAndCrop_provenance. Qed.

Lemma for_range_empty {S : Type} (lo hi : Z) (f : Z -> S -> S) (s : S) :
  hi <= lo -> for_range lo hi f s = s.
Proof. intros H. unfold for_range. now rewrite seqZ_nil by lia. Qed.

(** X6. A target width or height that is zero or negative: no pixel is
    computed, and the result is the blank image that [image.NewRGBA] makes
    of the rectangle, whose sides are the absolute values ([image.Rect]
    swaps the corners of a negative one). *)
Theorem rotateAndCrop_degenerate (img : RGBA) (angle : F)
    (targetWidth targetHeight : Z) :
  targetWidth <= 0 \/ targetHeight <= 0 ->
  let final := rotateAndCrop img angle targetWidth targetHeight in
  final = NewRGBA (image_Rect 0 0 targetWidth targetHeight)
  /\ Dx (Rect final) = Z.abs targetWidth
  /\ Dy (Rect final) = Z.abs targetHeight
  /\ forall x y, RGBA_At final x y = color_Transparent.
Proof.
  intros Hdeg. cbv zeta.
  assert (Heq : rotateAndCrop img angle targetWidth targetHeight
                = NewRGBA (image_Rect 0 0 targetWidth targetHeight)).
  { destruct (rotateAndCrop_put img angle targetWidth targetHeight) as (px & _ & ->).
    destruct Hdeg as [Hw | Hh].
    - unfold for_range at 1. apply fold_left_fixed. intros y.
      now apply for_range_empty.
    - now apply for_range_empty. }
  rewrite Heq. split; [reflexivity |]. unfold NewRGBA. cbn [Rect].
  split; [| split].
  - unfold image_Rect, Dx.
    destruct (Z.ltb_spec targetWidth 0), (Z.ltb_spec targetHeight 0); cbn; lia.
  - unfold image_Rect, Dy.
    destruct (Z.ltb_spec targetWidth 0), (Z.ltb_spec targetHeight 0); cbn; lia.
  - intros x y. apply (RGBA_At_NewRGBA (image_Rect 0 0 targetWidth targetHeight)).
Qed.

End ResamplerFacts.

(** ** The painter *)

(** The 16-bit alpha is above zero exactly when the alpha is. *)
Lemma alpha16_pos (c : color_RGBA) : (0 <? RGBA_alpha16 c) = (0 <? A c).
Proof.
  unfold RGBA_alpha16.
  destruct (Z.ltb_spec 0 (A c)) as [Hpos | Hle].
  - apply Z.ltb_lt.
    assert (0 <= Z.lor (A c) (Z.shiftl (A c) 8))
      by (apply Z.lor_nonneg; split; [lia | apply Z.shiftl_nonneg; lia]).
    assert (Z.lor (A c) (Z.shiftl (A c) 8) <> 0)
      by (rewrite Z.lor_eq_0_iff; lia).
    lia.
  - apply Z.ltb_ge. destruct (Z.eq_dec (A c) 0) as [-> | Hne]; [reflexivity |].
    assert (~ 0 <= Z.lor (A c) (Z.shiftl (A c) 8)); [| lia].
    rewrite Z.lor_nonneg. lia.
Qed.

(** The pixels that the painter paints, in its order. *)
Lemma paint_row (img : RGBA) (color y : Z) (xs : list Z) :
  forall calls,
    fold_left (fun calls x =>
                 if 0 <? RGBA_alpha16 (RGBA_At img x y)
                 then calls ++ [(x, y, color)] else calls) xs calls =
      calls ++
      List.map (fun a => (fst a, snd a, color))
        (List.filter (fun a => 0 <? A (RGBA_At img (fst a) (snd a)))
           (List.map (fun x => (x, y)) xs)).
Proof.
  induction xs as [|x xs IH]; intros calls; cbn [fold_left List.map List.filter].
  - now rewrite app_nil_r.
  - rewrite IH, alpha16_pos. cbn [fst snd].
    destruct (0 <? A (RGBA_At img x y)); cbn [List.map fst snd];
      [now rewrite <- app_assoc | reflexivity].
Qed.

Lemma paint_rows (img : RGBA) (color : Z) (xs ys : list Z) :
  forall calls,
    fold_left (fun calls y =>
      fold_left (fun calls x =>
                   if 0 <? RGBA_alpha16 (RGBA_At img x y)
                   then calls ++ [(x, y, color)] else calls) xs calls) ys calls =
      calls ++
      List.map (fun a => (fst a, snd a, color))
        (List.filter (fun a => 0 <? A (RGBA_At img (fst a) (snd a)))
           (tileAnchors xs ys)).
Proof.
  induction ys as [|y ys IH]; intros calls;
    cbn [fold_left tileAnchors List.flat_map List.map List.filter].
  - now rewrite app_nil_r.
  - rewrite IH, paint_row, <- app_assoc. f_equal.
    now rewrite List.filter_app, List.map_app.
Qed.

Lemma paintWatermark_list (img : RGBA) (color : Z) :
  paintWatermark img color =
    List.map (fun a => (fst a, snd a, color))
      (List.filter (fun a => 0 <? A (RGBA_At img (fst a) (snd a)))
         (tileAnchors (seqZ 0 (Dx (Rect img))) (seqZ 0 (Dy (Rect img))))).
Proof.
  unfold paintWatermark, for_range, Bounds. rewrite !Z.sub_0_r.
  now rewrite paint_rows.
Qed.

Lemma elem_of_tileAnchors (xs ys : list Z) (x y : Z) :
  (x, y) ∈ tileAnchors xs ys <-> x ∈ xs /\ y ∈ ys.
Proof.
  unfold tileAnchors. rewrite list_elem_of_In, List.in_flat_map. split.
  - intros (y' & Hy & Hin). apply List.in_map_iff in Hin.
    destruct Hin as (x' & Heq & Hx). inversion Heq; subst.
    rewrite !list_elem_of_In. auto.
  - intros [Hx Hy]. rewrite !list_elem_of_In in *. exists y. split; [assumption |].
    apply List.in_map_iff. eauto.
Qed.

Lemma elem_of_paintWatermark (img : RGBA) (color x y c : Z) :
  (x, y, c) ∈ paintWatermark img color <->
  c = color /\ 0 <= x < Dx (Rect img) /\ 0 <= y < Dy (Rect img)
  /\ 0 < A (RGBA_At img x y).
Proof.
  rewrite paintWatermark_list, list_elem_of_In, List.in_map_iff. split.
  - intros ([x' y'] & Heq & Hin). cbn [fst snd] in Heq. inversion Heq; subst.
    apply List.filter_In in Hin. destruct Hin as [Hin Hpos]. cbn [fst snd] in Hpos.
    apply list_elem_of_In, elem_of_tileAnchors in Hin.
    rewrite !elem_of_seqZ in Hin. apply Z.ltb_lt in Hpos. lia.
  - intros (-> & Hx & Hy & Hpos). exists (x, y). split; [reflexivity |].
    apply List.filter_In. split.
    + apply list_elem_of_In, elem_of_tileAnchors. rewrite !elem_of_seqZ. lia.
    + cbn [fst snd]. now apply Z.ltb_lt.
Qed.

Lemma NoDup_map_injective {T U : Type} (f : T -> U) (l : list T) :
  (forall a b, f a = f b -> a = b) -> List.NoDup l -> List.NoDup (List.map f l).
Proof.
  intros Hinj Hl. induction Hl as [|a l Hnotin Hl IH]; cbn [List.map]; constructor.
  - intros Hin. apply List.in_map_iff in Hin. destruct Hin as (b & Heq & Hb).
    apply Hinj in Heq. subst. contradiction.
  - exact IH.
Qed.

(** X7. The painter calls [SetPixelV] once for each pixel of the image
    whose alpha is not zero, row by row, always with the configured
    colour: how large the alpha is plays no part. *)
Theorem paintWatermark_spec (img : RGBA) (color : Z) :
  paintWatermark img color =
    List.map (fun a => (fst a, snd a, color))
      (List.filter (fun a => 0 <? A (RGBA_At img (fst a) (snd a)))
         (tileAnchors (seqZ 0 (Dx (Rect img))) (seqZ 0 (Dy (Rect img)))))
  /\ (forall x y c,
        (x, y, c) ∈ paintWatermark img color <->
        c = color /\ 0 <= x < Dx (Rect img) /\ 0 <= y < Dy (Rect img)
        /\ 0 < A (RGBA_At img x y))
  /\ NoDup (paintWatermark img color).
Proof.
  split; [apply paintWatermark_list |]. split; [apply elem_of_paintWatermark |].
  rewrite paintWatermark_list. apply NoDup_ListNoDup.
  apply NoDup_map_injective.
  - intros [x1 y1] [x2 y2] Heq. cbn [fst snd] in Heq. now inversion Heq.
  - apply List.NoDup_filter. unfold tileAnchors.
    generalize (NoDup_seqZ 0 (Dx (Rect img))). intros Hx.
    generalize (NoDup_seqZ 0 (Dy (Rect img))). intros Hy.
    apply NoDup_ListNoDup in Hx. apply NoDup_ListNoDup in Hy.
    revert Hy. generalize (seqZ 0 (Dy (Rect img))) as ys.
    induction ys as [|y ys IH]; intros Hy; cbn [List.flat_map]; [constructor |].
    inversion Hy as [|? ? Hnotin Hys]; subst.
    apply List.NoDup_app; [| apply IH; assumption |].
    + apply NoDup_map_injective; [| assumption].
      intros a b Hab. now inversion Hab.
    + intros [x' y'] Hin1 Hin2. apply List.in_map_iff in Hin1.
      destruct Hin1 as (x0 & Heq & _). inversion Heq; subst.
      apply List.in_flat_map in Hin2. destruct Hin2 as (y0 & Hy0 & Hin2).
      apply List.in_map_iff in Hin2. destruct Hin2 as (x1 & Heq1 & _).
      inversion Heq1; subst. contradiction.
Qed.

Section PaintAfterRotate.

Context {F : Type} `{FO : Float64Ops F}.

(** X8. What reaches the screen: after [rotateAndCrop], the painter paints
    the pixel [(x, y)] of the target exactly when its source point is
    within the bounds of the canvas and the canvas pixel there has an alpha
    above zero. *)
Theorem paint_after_rotateAndCrop (img : RGBA) (rotationDegrees : F)
    (targetWidth targetHeight color : Z) :
  0 <= targetWidth -> 0 <= targetHeight ->
  forall x y c,
    let rad := (rotationDegrees * math_Pi / f_of_int 180)%f64 in
    let w := f_of_int (Dx (Rect img)) in
    let h := f_of_int (Dy (Rect img)) in
    let dx := (f_of_int x - f_of_int targetWidth / f_of_int 2)%f64 in
    let dy := (f_of_int y - f_of_int targetHeight / f_of_int 2)%f64 in
    let srcX := (dx * math_Cos (- rad) - dy * math_Sin (- rad) + w / f_of_int 2)%f64 in
    let srcY := (dx * math_Sin (- rad) + dy * math_Cos (- rad) + h / f_of_int 2)%f64 in
    (x, y, c) ∈
      paintWatermark (rotateAndCrop img rotationDegrees targetWidth targetHeight) color
    <->
    c = color /\ 0 <= x < targetWidth /\ 0 <= y < targetHeight
    /\ (f_of_int 0 <=? srcX)%f64 && (srcX <? w)%f64
       && (f_of_int 0 <=? srcY)%f64 && (srcY <? h)%f64 = true
    /\ 0 < A (RGBA_At img (f_to_int srcX) (f_to_int srcY)).
Proof.
  intros Hw Hh x y c. cbv zeta. rewrite elem_of_paintWatermark.
  destruct (rotateAndCrop_pixels img rotationDegrees targetWidth targetHeight Hw Hh)
    as (HR & _ & Hpx).
  rewrite HR. unfold Dx at 1, Dy at 1. cbn [X Y Min Max]. rewrite !Z.sub_0_r.
  split.
  - intros (-> & Hx & Hy & Hpos). rewrite (Hpx x y Hx Hy) in Hpos.
    destruct (_ && _); [auto | cbn in Hpos; lia].
  - intros (-> & Hx & Hy & Hin & Hpos). rewrite (Hpx x y Hx Hy), Hin. auto.
Qed.

(** X9. Before any tile is drawn nothing would be painted: the blank canvas,
    turned by any angle and cropped to any size, gives no call of
    [SetPixelV]. *)
Theorem blank_canvas_paints_nothing (canvasSize : Z) (angle : F)
    (targetWidth targetHeight color : Z) :
  paintWatermark
    (rotateAndCrop (blankCanvas canvasSize) angle targetWidth targetHeight) color
  = [].
Proof.
  destruct (paintWatermark _ color) as [|[[x y] c] l] eqn:Hp; [reflexivity | exfalso].
  assert (Hin : (x, y, c) ∈
            paintWatermark
              (rotateAndCrop (blankCanvas canvasSize) angle targetWidth targetHeight)
              color) by (rewrite Hp; apply list_elem_of_here).
  apply elem_of_paintWatermark in Hin. destruct Hin as (_ & _ & _ & Hpos).
  destruct (rotateAndCrop_provenance (blankCanvas canvasSize) angle targetWidth
              targetHeight) as [_ Hblank].
  rewrite Hblank in Hpos; [lia |].
  intros sx sy. rewrite blankCanvas_NewRGBA. now rewrite RGBA_At_NewRGBA.
Qed.

End PaintAfterRotate.

(** ** [createWatermarkImage]: what it draws *)

(** What holds before a loop and is kept by its body holds when the loop
    ends, whatever the step. *)
Lemma for_step_invariant {S : Type} (P : S -> Prop) (fuel : nat) (hi step : Z)
    (body : Z -> S -> outcome S) :
  (forall i s s', P s -> body i s = Ok s' -> P s') ->
  forall i s s', P s -> for_step fuel i hi step body s = Ok s' -> P s'.
Proof.
  intros Hbody. induction fuel as [|fuel IH]; intros i s s' Hs; cbn [for_step];
    destruct (i <? hi); try discriminate; try (intros [= <-]; exact Hs).
  destruct (body i s) as [t| | |] eqn:Hb; cbn [bind]; try discriminate.
  apply IH. eapply Hbody; eassumption.
Qed.

Lemma length_append (a b : string) :
  String.length (String.append a b) = (String.length a + String.length b)%nat.
Proof. induction a as [|x a IH]; cbn; [reflexivity | now rewrite IH]. Qed.

Lemma length_repeat_nat (s : string) (n : nat) :
  String.length (GoStrings.repeat_nat s n) = (n * String.length s)%nat.
Proof.
  induction n as [|n IH]; cbn [GoStrings.repeat_nat]; [reflexivity |].
  rewrite length_append, IH. lia.
Qed.

Section Outcomes.

Context {F : Type} `{FO : Float64Ops F} `{GR : GlyphRenderer F}.

Variables (cfg : WatermarkConfig F) (screenWidth screenHeight : Z) (username : string).

(** X11. Every string that [createWatermarkImage] draws is the same one:
    ["CompanyName "], the name that [extractUsername] makes of the user
    name, and [spaceCount] spaces; this whatever the spacing and however
    many tiles are drawn.  The draws are those of the log and no other:
    the tiled canvas is the blank canvas with [DrawString] applied to each
    logged call in turn, with the parsed font, the configured size and
    opaque black. *)
Theorem watermark_text (fuel : nat) (img : RGBA) (log : DrawLog) :
  synthesize cfg screenWidth screenHeight username fuel = Ok (img, log) ->
  exists font spaces,
    truetype_Parse (fontData cfg) = Some font
    /\ GoStrings.Repeat " " (spaceCount cfg) = Some spaces
    /\ Z.of_nat (String.length spaces) = spaceCount cfg
    /\ Forall (fun call =>
                 fst call =
                 String.append "CompanyName "
                   (String.append (extractUsername username) spaces)) log
    /\ let canvas :=
         blankCanvas (canvasSizeOf (GoInt.wrap screenWidth) (GoInt.wrap screenHeight)) in
       img = replay
               (mkContext (f_of_int 72) font (fontSize cfg) (Bounds canvas) color_Black)
               log canvas.
Proof.
  unfold synthesize, GoStrings.Repeat.
  destruct (truetype_Parse (fontData cfg)) as [font|]; [| discriminate].
  destruct (Z.ltb_spec (spaceCount cfg) 0) as [Hneg | Hpos]; [discriminate |].
  set (spaces := GoStrings.repeat_nat " " (Z.to_nat (spaceCount cfg))).
  set (text := String.append "CompanyName "
                 (String.append (extractUsername username) spaces)).
  set (canvas := blankCanvas _).
  set (c := mkContext _ _ _ _ _).
  intros Hrun. exists font, spaces. split; [reflexivity |]. split; [reflexivity |].
  split; [unfold spaces; rewrite length_repeat_nat; cbn [String.length]; lia |].
  set (P := fun st : RGBA * DrawLog =>
              Forall (fun call => fst call = text) (snd st)
              /\ fst st = replay c (snd st) canvas).
  assert (HP : P (img, log)).
  { unfold drawTiles in Hrun.
    apply (for_step_invariant P) in Hrun; [exact Hrun | | split; [constructor | reflexivity]].
    intros y st st' Hst Hrow.
    apply (for_step_invariant P) in Hrow; [exact Hrow | | exact Hst].
    intros x t t' [Ht1 Ht2] [= <-]. rewrite drawTile_replay. split; cbn [fst snd].
    - apply Forall_app. split; [exact Ht1 |].
      unfold drawCalls. cbn [List.filter]. destruct (onCanvas _ _); cbn [List.map];
        repeat constructor.
    - now rewrite replay_app, Ht2. }
  exact HP.
Qed.

End Outcomes.

(** ** A rotation of zero degrees, for any sizes *)

Section Placement.

Context {F : Type} `{FE : Float64Exact F}.

(** X12. With a rotation of zero degrees the canvas is laid centre on
    centre over the target: the pixel [(x, y)] of the result is the canvas
    pixel [(x + (cw - tw) div 2, y + (ch - th) div 2)] ([div] rounding
    down) when that lies within [0, cw) by [0, ch), and is transparent
    otherwise.  A canvas smaller than the target is padded with
    transparent pixels, a larger one is cropped. *)
Theorem identity_rotation_centres (img : RGBA) (rotationDegrees : F)
    (targetWidth targetHeight : Z) :
  repr rotationDegrees 0%Q ->
  0 <= targetWidth <= 2 ^ 50 -> 0 <= targetHeight <= 2 ^ 50 ->
  0 <= Dx (Rect img) <= 2 ^ 50 -> 0 <= Dy (Rect img) <= 2 ^ 50 ->
  forall x y,
    0 <= x < targetWidth -> 0 <= y < targetHeight ->
    let sx := x + (Dx (Rect img) - targetWidth) / 2 in
    let sy := y + (Dy (Rect img) - targetHeight) / 2 in
    RGBA_At (rotateAndCrop img rotationDegrees targetWidth targetHeight) x y =
      if (0 <=? sx) && (sx <? Dx (Rect img)) && (0 <=? sy) && (sy <? Dy (Rect img))
      then RGBA_At img sx sy
      else color_Transparent.
Proof.
  intros Hdeg Htw Hth Hcw Hch x y Hx Hy. cbv zeta.
  set (cw := Dx (Rect img)) in *. set (ch := Dy (Rect img)) in *.
  assert (Hd : forall u cu tu, (2 * u - tu + cu) / 2 = u + (cu - tu) / 2).
  { intros u cu tu. replace (2 * u - tu + cu) with ((cu - tu) + u * 2) by lia.
    rewrite Z.div_add by lia. lia. }
  destruct (rotateAndCrop_pixels img rotationDegrees targetWidth targetHeight
              ltac:(lia) ltac:(lia)) as (_ & _ & Hpx).
  rewrite (Hpx x y Hx Hy). clear Hpx. fold cw ch.
  pose proof (repr_rad_0 rotationDegrees Hdeg) as Hrad.
  pose proof (repr_Cos_0 _ Hrad) as Hcos. pose proof (repr_Sin_0 _ Hrad) as Hsin.
  destruct (repr_source _ _ x targetWidth cw y targetHeight Hcos Hsin
              ltac:(lia) ltac:(lia) ltac:(lia) ltac:(lia) ltac:(lia)) as [HsX _].
  destruct (repr_source _ _ y targetHeight ch x targetWidth Hcos Hsin
              ltac:(lia) ltac:(lia) ltac:(lia) ltac:(lia) ltac:(lia)) as [_ HsY].
  rewrite (repr_h_le_0 _ _ HsX), (repr_h_le_0 _ _ HsY).
  rewrite (repr_h_lt _ _ cw HsX) by lia. rewrite (repr_h_lt _ _ ch HsY) by lia.
  rewrite <- (Hd x cw targetWidth), <- (Hd y ch targetHeight).
  set (kx := 2 * x - targetWidth + cw) in *.
  set (ky := 2 * y - targetHeight + ch) in *.
  pose proof (Z.div_mod kx 2 ltac:(lia)) as Hkx.
  pose proof (Z.mod_pos_bound kx 2 ltac:(lia)) as Hkx'.
  pose proof (Z.div_mod ky 2 ltac:(lia)) as Hky.
  pose proof (Z.mod_pos_bound ky 2 ltac:(lia)) as Hky'.
  destruct (Z.leb_spec 0 kx), (Z.leb_spec 0 (kx / 2)); try lia; cbn [andb];
    [| reflexivity].
  destruct (Z.ltb_spec kx (2 * cw)), (Z.ltb_spec (kx / 2) cw); try lia; cbn [andb];
    [| reflexivity].
  destruct (Z.leb_spec 0 ky), (Z.leb_spec 0 (ky / 2)); try lia; cbn [andb];
    [| reflexivity].
  destruct (Z.ltb_spec ky (2 * ch)), (Z.ltb_spec (ky / 2) ch); try lia; cbn [andb];
    [| reflexivity].
  rewrite (repr_h_to_int _ _ HsX) by (unfold kx; lia).
  rewrite (repr_h_to_int _ _ HsY) by (unfold ky; lia).
  reflexivity.
Qed.

End Placement.

(** ** A skew of zero degrees: the tiles form a grid from the corner *)

(** Lists of anchors. *)
Lemma filter_row (p q : Z -> bool) (y : Z) (xs : list Z) :
  List.filter (fun a => p (fst a) && q (snd a)) (List.map (fun x => (x, y)) xs) =
    if q y then List.map (fun x => (x, y)) (List.filter p xs) else [].
Proof.
  induction xs as [|x xs IH]; cbn [List.map List.filter fst snd].
  - now destruct (q y).
  - rewrite IH. destruct (p x), (q y); reflexivity.
Qed.

Lemma filter_tileAnchors (p q : Z -> bool) (xs ys : list Z) :
  List.filter (fun a => p (fst a) && q (snd a)) (tileAnchors xs ys) =
    tileAnchors (List.filter p xs) (List.filter q ys).
Proof.
  unfold tileAnchors. induction ys as [|y ys IH]; cbn [List.flat_map List.filter].
  - reflexivity.
  - rewrite List.filter_app, IH, filter_row.
    destruct (q y); reflexivity.
Qed.

Lemma map_tileAnchors (f : Z -> Z) (xs ys : list Z) :
  tileAnchors (List.map f xs) (List.map f ys) =
    List.map (fun a => (f (fst a), f (snd a))) (tileAnchors xs ys).
Proof.
  unfold tileAnchors. induction ys as [|y ys IH]; cbn [List.flat_map List.map].
  - reflexivity.
  - rewrite List.map_app, <- IH, !List.map_map. reflexivity.
Qed.

Lemma map_progression (h step : Z) (n : nat) :
  forall i, List.map (fun x => x + h) (progression n i step) = progression n (i + h) step.
Proof.
  induction n as [|n IH]; intros i; cbn [progression List.map]; [reflexivity |].
  rewrite IH. do 2 f_equal. lia.
Qed.

(** Of a run from [i], those below [b - h] are its beginning. *)
Lemma filter_progression (h b step : Z) (n : nat) :
  0 < step ->
  forall i, 0 <= i + h ->
    List.filter (fun x => (0 <=? x + h) && (x + h <? b)) (progression n i step) =
      progression (Nat.min n (steps (i + h) b step)) i step.
Proof.
  intros Hs. induction n as [|n IH]; intros i Hi; cbn [progression List.filter].
  - reflexivity.
  - rewrite IH by lia. replace (i + step + h) with (i + h + step) by lia.
    destruct (Z.leb_spec 0 (i + h)); [| lia]. cbn [andb].
    destruct (Z.ltb_spec (i + h) b) as [Hlt | Hge].
    + rewrite (steps_more (i + h) b step Hs Hlt). reflexivity.
    + rewrite (steps_done (i + h) b step Hs Hge).
      rewrite (steps_done (i + h + step) b step Hs) by lia.
      now rewrite Nat.min_0_r.
Qed.

Lemma elem_of_axisAnchors_bounds (lo hi step v : Z) :
  0 < step -> v ∈ axisAnchors lo hi step -> lo <= v < hi.
Proof.
  intros Hs Hv. apply elem_of_axisAnchors in Hv; [| assumption].
  destruct Hv as (k & Hk & -> & Hlt). nia.
Qed.

(** The anchors that fall on a canvas of side [cs], moved by half a side:
    the multiples of the pitch below [cs]. *)
Lemma anchors_on_canvas (cs step : Z) :
  0 <= cs -> 0 < step ->
  List.map (fun x => x + cs / 2)
    (List.filter (fun x => (0 <=? x + cs / 2) && (x + cs / 2 <? cs))
       (axisAnchors (- (cs / 2)) (cs * 3 / 2) step))
  = axisAnchors 0 cs step.
Proof.
  intros Hcs Hs. unfold axisAnchors.
  rewrite filter_progression by lia. rewrite map_progression.
  replace (- (cs / 2) + cs / 2) with 0 by lia.
  rewrite Nat.min_r; [reflexivity |].
  pose proof (Z.div_mod cs 2 ltac:(lia)).
  pose proof (Z.mod_pos_bound cs 2 ltac:(lia)).
  pose proof (Z.div_mod (cs * 3) 2 ltac:(lia)).
  pose proof (Z.mod_pos_bound (cs * 3) 2 ltac:(lia)).
  unfold steps. apply Z2Nat.inj_le.
  - apply Z.div_pos; lia.
  - apply Z.div_pos; lia.
  - apply Z.div_le_mono; lia.
Qed.

Section SkewZero.

Context {F : Type} `{FE : Float64Exact F}.

Lemma repr_rad (angle : F) :
  repr angle 0%Q -> repr (angle * math_Pi / f_of_int 180)%f64 0%Q.
Proof.
  intros Ha. destruct repr_Pi as [q Hq].
  assert (H0 : (0 * q == 0)%Q) by apply Qmult_0_l.
  assert (Hm : repr (angle * math_Pi)%f64 0%Q).
  { apply repr_proper with (0 * q)%Q; [| exact H0].
    apply repr_mul; [assumption .. |]. apply (half_int_intro _ 0); [lia |].
    rewrite H0. reflexivity. }
  assert (H1 : (0 / inject_Z 180 == 0)%Q) by reflexivity.
  apply repr_proper with (0 / inject_Z 180)%Q; [| exact H1].
  apply repr_div; [assumption | apply repr_of_int; lia | discriminate |].
  apply (half_int_intro _ 0); [lia | reflexivity].
Qed.

(** The anchor [(x, y)], not turned, moved to the centre. *)
Lemma repr_rotated (one zero : F) (x y cs : Z) :
  repr one 1%Q -> repr zero 0%Q ->
  Z.abs x <= 2 ^ 50 -> Z.abs y <= 2 ^ 50 -> 0 <= cs <= 2 ^ 50 ->
  repr (f_of_int x * one - f_of_int y * zero + f_of_int cs / f_of_int 2)%f64
    (2 * x + cs # 2)
  /\ repr (f_of_int x * zero + f_of_int y * one + f_of_int cs / f_of_int 2)%f64
       (2 * y + cs # 2).
Proof.
  intros H1 H0 Hx Hy Hcs.
  assert (Hix := repr_int x ltac:(lia)). assert (Hiy := repr_int y ltac:(lia)).
  assert (Hc := repr_half cs ltac:(lia)).
  split.
  - apply repr_h_add; [| exact Hc | lia].
    replace (2 * x) with (2 * x - 0) by lia.
    apply repr_h_sub; [| eapply repr_h_mul_0; eassumption | lia].
    apply repr_h_mul_1; [assumption .. | lia].
  - apply repr_h_add; [| exact Hc | lia].
    replace (2 * y) with (0 + 2 * y) by lia.
    apply repr_h_add; [eapply repr_h_mul_0; eassumption | | lia].
    apply repr_h_mul_1; [assumption .. | lia].
Qed.

Variables (watermarkText : string) (canvasSize : Z) (angle : F).
Hypothesis angle_0 : repr angle 0%Q.
Hypothesis canvasSize_range : 0 <= canvasSize <= 2 ^ 49.

Let rad : F := (angle * math_Pi / f_of_int 180)%f64.
Let inside (v : Z) : bool :=
  (0 <=? v + canvasSize / 2) && (v + canvasSize / 2 <? canvasSize).

Lemma drawCalls_skew_zero (l : list (Z * Z)) :
  Forall (fun a => Z.abs (fst a) <= 2 ^ 50 /\ Z.abs (snd a) <= 2 ^ 50) l ->
  drawCalls watermarkText canvasSize rad l =
    List.map
      (fun a => (watermarkText,
                 freetype_Pt (fst a + canvasSize / 2) (snd a + canvasSize / 2)))
      (List.filter (fun a => inside (fst a) && inside (snd a)) l).
Proof.
  pose proof (repr_rad angle angle_0) as Hrad. fold rad in Hrad.
  pose proof (repr_Cos_0 _ Hrad) as Hcos. pose proof (repr_Sin_0 _ Hrad) as Hsin.
  intros Hl. unfold drawCalls. induction Hl as [|[x y] l [Hx Hy] Hl IH];
    cbn [List.filter List.map fst snd]; [reflexivity |].
  cbn [fst snd] in Hx, Hy.
  destruct (repr_rotated _ _ x y canvasSize Hcos Hsin Hx Hy ltac:(lia)) as [HrX HrY].
  assert (Hd : forall u, (2 * u + canvasSize) / 2 = u + canvasSize / 2).
  { intros u. replace (2 * u + canvasSize) with (canvasSize + u * 2) by lia.
    rewrite Z.div_add by lia. lia. }
  assert (Hon : onCanvas canvasSize (rotated canvasSize rad x y)
                = inside x && inside y).
  { unfold onCanvas, rotated, inside.
    rewrite (repr_h_le_0 _ _ HrX), (repr_h_le_0 _ _ HrY).
    rewrite (repr_h_lt _ _ canvasSize HrX) by lia.
    rewrite (repr_h_lt _ _ canvasSize HrY) by lia.
    rewrite <- (Hd x), <- (Hd y).
    pose proof (Z.div_mod (2 * x + canvasSize) 2 ltac:(lia)).
    pose proof (Z.mod_pos_bound (2 * x + canvasSize) 2 ltac:(lia)).
    pose proof (Z.div_mod (2 * y + canvasSize) 2 ltac:(lia)).
    pose proof (Z.mod_pos_bound (2 * y + canvasSize) 2 ltac:(lia)).
    destruct (Z.leb_spec 0 (2 * x + canvasSize)),
      (Z.leb_spec 0 ((2 * x + canvasSize) / 2)); try lia;
    destruct (Z.ltb_spec (2 * x + canvasSize) (2 * canvasSize)),
      (Z.ltb_spec ((2 * x + canvasSize) / 2) canvasSize); try lia;
    destruct (Z.leb_spec 0 (2 * y + canvasSize)),
      (Z.leb_spec 0 ((2 * y + canvasSize) / 2)); try lia;
    destruct (Z.ltb_spec (2 * y + canvasSize) (2 * canvasSize)),
      (Z.ltb_spec ((2 * y + canvasSize) / 2) canvasSize); try lia; reflexivity. }
  rewrite Hon. destruct (inside x && inside y) eqn:Hin; cbn [List.map fst snd];
    [| exact IH].
  rewrite IH. f_equal. f_equal.
  apply andb_prop in Hin. destruct Hin as [Hix Hiy]. unfold inside in Hix, Hiy.
  apply andb_prop in Hix. apply andb_prop in Hiy.
  destruct Hix as [Hx0 _]. destruct Hiy as [Hy0 _].
  apply Z.leb_le in Hx0. apply Z.leb_le in Hy0.
  unfold rotated. cbn [fst snd].
  rewrite (repr_h_to_int _ _ HrX), (repr_h_to_int _ _ HrY), !Hd; [reflexivity | |].
  - rewrite <- (Hd y) in Hy0.
    pose proof (Z.div_mod (2 * y + canvasSize) 2 ltac:(lia)).
    pose proof (Z.mod_pos_bound (2 * y + canvasSize) 2 ltac:(lia)). lia.
  - rewrite <- (Hd x) in Hx0.
    pose proof (Z.div_mod (2 * x + canvasSize) 2 ltac:(lia)).
    pose proof (Z.mod_pos_bound (2 * x + canvasSize) 2 ltac:(lia)). lia.
Qed.

(** The draw calls of the whole tiling. *)
Lemma drawCalls_grid (sx sy : Z) :
  0 < sx -> 0 < sy ->
  drawCalls watermarkText canvasSize rad
    (tileAnchors (axisAnchors (- (canvasSize / 2)) (canvasSize * 3 / 2) sx)
                 (axisAnchors (- (canvasSize / 2)) (canvasSize * 3 / 2) sy))
  = List.map (fun a => (watermarkText, freetype_Pt (fst a) (snd a)))
      (tileAnchors (axisAnchors 0 canvasSize sx) (axisAnchors 0 canvasSize sy)).
Proof.
  intros Hsx Hsy.
  assert (Hhi : canvasSize * 3 / 2 <= 2 ^ 50)
    by (apply Z.div_le_upper_bound; lia).
  assert (Hlo : - 2 ^ 50 <= - (canvasSize / 2))
    by (pose proof (Z.div_le_upper_bound canvasSize 2 canvasSize); lia).
  rewrite drawCalls_skew_zero.
  - rewrite (filter_tileAnchors inside inside).
    rewrite <- (anchors_on_canvas canvasSize sx), <- (anchors_on_canvas canvasSize sy)
      by lia.
    rewrite map_tileAnchors, List.map_map. reflexivity.
  - apply Forall_forall. intros [x y] Hin. apply elem_of_tileAnchors in Hin.
    destruct Hin as [Hx Hy].
    apply elem_of_axisAnchors_bounds in Hx; [| assumption].
    apply elem_of_axisAnchors_bounds in Hy; [| assumption].
    cbn [fst snd]. lia.
Qed.

End SkewZero.

(** ** [createWatermarkImage] on a valid configuration *)

Section EndToEnd.

Context {F : Type} `{FE : Float64Exact F} `{GR : GlyphRenderer F}.

Variables (cfg : WatermarkConfig F) (screenWidth screenHeight : Z) (username : string).

(** The canvas side and the pitches of a screen and a configuration within
    the usual ranges. *)
Lemma valid_sizes :
  1 <= spacingX cfg <= 2 ^ 59 -> 1 <= spacingY cfg <= 2 ^ 59 ->
  0 <= screenWidth -> 0 <= screenHeight ->
  screenWidth * screenWidth + screenHeight * screenHeight < 2 ^ 52 ->
  let cs := Z.sqrt (screenWidth * screenWidth + screenHeight * screenHeight) * 5 / 4 in
  GoInt.wrap screenWidth = screenWidth /\ GoInt.wrap screenHeight = screenHeight
  /\ canvasSizeOf screenWidth screenHeight = cs /\ 0 <= cs <= 2 ^ 49
  /\ tilePitch cfg = (spacingX cfg * 4 / 3, spacingY cfg * 4 / 3)
  /\ 0 < spacingX cfg * 4 / 3 <= 2 ^ 60 /\ 0 < spacingY cfg * 4 / 3 <= 2 ^ 60.
Proof.
  intros Hsx Hsy Hw Hh Hn cs.
  assert (Hri : forall v, 0 <= v -> v * v < 2 ^ 52 -> GoInt.wrap v = v).
  { intros v Hv Hvv. apply wrap_in_range.
    unfold GoInt.in_range, GoInt.min_int, GoInt.max_int. nia. }
  assert (Hpitch : forall s, 1 <= s <= 2 ^ 59 -> 0 < s * 4 / 3 <= 2 ^ 60).
  { intros s Hs. split.
    - apply Z.div_str_pos. lia.
    - apply Z.div_le_upper_bound; lia. }
  split; [apply Hri; nia |]. split; [apply Hri; nia |].
  split; [now apply canvasSizeOf_exact |]. split.
  - set (n := screenWidth * screenWidth + screenHeight * screenHeight) in *.
    assert (Hk : 0 <= Z.sqrt n < 2 ^ 26).
    { split; [apply Z.sqrt_nonneg |].
      apply Z.sqrt_lt_square; [unfold n; nia | lia | lia]. }
    unfold cs. split; [apply Z.div_pos; lia | apply Z.div_le_upper_bound; lia].
  - split; [| split; apply Hpitch; assumption].
    unfold tilePitch. rewrite !quo_mul_pos by lia. reflexivity.
Qed.

(** With enough fuel, [synthesize] runs to its end over the anchors: the
    canvas is the replay of the draw calls, which the log lists. *)
Lemma synthesize_run :
  truetype_Parse (fontData cfg) <> None -> 0 <= spaceCount cfg ->
  1 <= spacingX cfg <= 2 ^ 59 -> 1 <= spacingY cfg <= 2 ^ 59 ->
  0 <= screenWidth -> 0 <= screenHeight ->
  screenWidth * screenWidth + screenHeight * screenHeight < 2 ^ 52 ->
  let cs := Z.sqrt (screenWidth * screenWidth + screenHeight * screenHeight) * 5 / 4 in
  let text :=
    String.append "CompanyName "
      (String.append (extractUsername username)
         (GoStrings.repeat_nat " " (Z.to_nat (spaceCount cfg)))) in
  let xs := axisAnchors (- (cs / 2)) (cs * 3 / 2) (spacingX cfg * 4 / 3) in
  let ys := axisAnchors (- (cs / 2)) (cs * 3 / 2) (spacingY cfg * 4 / 3) in
  let calls :=
    drawCalls text cs (angle cfg * math_Pi / f_of_int 180)%f64 (tileAnchors xs ys) in
  exists n : nat, exists font : Font,
    truetype_Parse (fontData cfg) = Some font
    /\ forall fuel, (n <= fuel)%nat ->
        synthesize cfg screenWidth screenHeight username fuel =
          Ok (replay
                (mkContext (f_of_int 72) font (fontSize cfg)
                   (Bounds (blankCanvas cs)) color_Black)
                calls (blankCanvas cs),
              calls).
Proof.
  intros Hfont Hcount Hsx Hsy Hw Hh Hn cs text xs ys calls.
  destruct (valid_sizes Hsx Hsy Hw Hh Hn)
    as (Hww & Hwh & Hcs & Hcsr & Hpitch & Hpx & Hpy). fold cs in Hcs, Hcsr.
  destruct (truetype_Parse (fontData cfg)) as [font|] eqn:Hparse; [| congruence].
  assert (Hrep : GoStrings.Repeat " " (spaceCount cfg)
                 = Some (GoStrings.repeat_nat " " (Z.to_nat (spaceCount cfg)))).
  { unfold GoStrings.Repeat. destruct (Z.ltb_spec (spaceCount cfg) 0); [lia | reflexivity]. }
  set (n := Nat.max (steps (- (cs / 2)) (cs * 3 / 2) (spacingX cfg * 4 / 3))
                    (steps (- (cs / 2)) (cs * 3 / 2) (spacingY cfg * 4 / 3))).
  exists n, font. split; [reflexivity |]. intros fuel Hfuel.
  rewrite (synthesize_tiles cfg screenWidth screenHeight username font _ fuel Hparse Hrep).
  rewrite Hww, Hwh, Hcs, Hpitch.
  rewrite drawTiles_run; [| lia | lia | lia | unfold n in Hfuel; lia ..].
  rewrite rows_replay. reflexivity.
Qed.

(** X13. On a valid configuration and screen [createWatermarkImage]
    returns: with enough fuel (and then whatever the fuel) it gives one and
    the same image, whose bounds are those of the screen. *)
Theorem createWatermarkImage_returns :
  truetype_Parse (fontData cfg) <> None -> 0 <= spaceCount cfg ->
  1 <= spacingX cfg <= 2 ^ 59 -> 1 <= spacingY cfg <= 2 ^ 59 ->
  0 <= screenWidth -> 0 <= screenHeight ->
  screenWidth * screenWidth + screenHeight * screenHeight < 2 ^ 52 ->
  exists n : nat, exists final : RGBA,
    (forall fuel, (n <= fuel)%nat ->
       createWatermarkImage cfg screenWidth screenHeight username fuel = Ok final)
    /\ Rect final = mkRectangle (mkPoint 0 0) (mkPoint screenWidth screenHeight)
    /\ length (Pix final) = Z.to_nat (screenWidth * screenHeight).
Proof.
  intros Hfont Hcount Hsx Hsy Hw Hh Hn.
  destruct (synthesize_run Hfont Hcount Hsx Hsy Hw Hh Hn) as (n & font & _ & Hrun).
  cbv zeta in Hrun.
  match type of Hrun with
  | forall fuel, _ -> _ = Ok (?canvas, _) => set (img := canvas) in *
  end.
  destruct (valid_sizes Hsx Hsy Hw Hh Hn) as (Hww & Hwh & _).
  destruct (rotateAndCrop_pixels img (imageRotation cfg) screenWidth screenHeight Hw Hh)
    as (HR & Hlen & _).
  exists n, (rotateAndCrop img (imageRotation cfg) screenWidth screenHeight).
  split; [| split; assumption].
  intros fuel Hfuel. unfold createWatermarkImage.
  rewrite (Hrun fuel Hfuel). cbn [bind fst]. now rewrite Hww, Hwh.
Qed.

(** X14. With a skew of zero degrees (the value in [watermarkConfig]) the
    text is drawn at the points [(i * pitchX, j * pitchY)] of the canvas,
    [i, j >= 0], that lie within the canvas side, row after row, and
    nowhere else: the tiled canvas is the blank canvas with [DrawString]
    applied at these points in turn, and the log lists these calls. *)
Theorem skew_zero_draws_a_grid :
  repr (angle cfg) 0%Q ->
  truetype_Parse (fontData cfg) <> None -> 0 <= spaceCount cfg ->
  1 <= spacingX cfg <= 2 ^ 59 -> 1 <= spacingY cfg <= 2 ^ 59 ->
  0 <= screenWidth -> 0 <= screenHeight ->
  screenWidth * screenWidth + screenHeight * screenHeight < 2 ^ 52 ->
  let cs := Z.sqrt (screenWidth * screenWidth + screenHeight * screenHeight) * 5 / 4 in
  let text :=
    String.append "CompanyName "
      (String.append (extractUsername username)
         (GoStrings.repeat_nat " " (Z.to_nat (spaceCount cfg)))) in
  let grid :=
    List.map (fun a => (text, freetype_Pt (fst a) (snd a)))
      (tileAnchors (axisAnchors 0 cs (spacingX cfg * 4 / 3))
                   (axisAnchors 0 cs (spacingY cfg * 4 / 3))) in
  exists n : nat, exists font : Font,
    truetype_Parse (fontData cfg) = Some font
    /\ forall fuel, (n <= fuel)%nat ->
        synthesize cfg screenWidth screenHeight username fuel =
          Ok (replay
                (mkContext (f_of_int 72) font (fontSize cfg)
                   (Bounds (blankCanvas cs)) color_Black)
                grid (blankCanvas cs),
              grid).
Proof.
  intros Hangle Hfont Hcount Hsx Hsy Hw Hh Hn cs text grid.
  destruct (synthesize_run Hfont Hcount Hsx Hsy Hw Hh Hn) as (n & font & Hparse & Hrun).
  destruct (valid_sizes Hsx Hsy Hw Hh Hn) as (_ & _ & _ & Hcsr & _ & Hpx & Hpy).
  exists n, font. split; [exact Hparse |]. intros fuel Hfuel.
  rewrite (Hrun fuel Hfuel). fold cs text.
  assert (Hgrid : drawCalls text cs (angle cfg * math_Pi / f_of_int 180)%f64
                    (tileAnchors
                       (axisAnchors (- (cs / 2)) (cs * 3 / 2) (spacingX cfg * 4 / 3))
                       (axisAnchors (- (cs / 2)) (cs * 3 / 2) (spacingY cfg * 4 / 3)))
                  = grid).
  { apply drawCalls_grid; [assumption | exact Hcsr | lia | lia]. }
  rewrite Hgrid. reflexivity.
Qed.

End EndToEnd.

(** ** [colorHexToBGR] *)

Section ColourFacts.

Import GoFmt.

Lemma land_shiftl_mask (a m k : Z) :
  0 <= k -> Z.land a (Z.shiftl m k) = Z.shiftl (Z.land (Z.shiftr a k) m) k.
Proof.
  intros Hk. apply Z.bits_inj'. intros n Hn.
  rewrite Z.land_spec, !Z.shiftl_spec by lia.
  destruct (Z.ltb_spec n k) as [Hlt | Hge].
  - rewrite !(Z.testbit_neg_r _ (n - k)) by lia. apply andb_false_r.
  - rewrite Z.land_spec, Z.shiftr_spec by lia.
    now replace (n - k + k) with n by lia.
Qed.

Lemma lor_disjoint (lo hi k : Z) :
  0 <= k -> 0 <= lo < 2 ^ k -> Z.lor lo (hi * 2 ^ k) = lo + hi * 2 ^ k.
Proof.
  intros Hk Hlo.
  assert (Hand : Z.land lo (hi * 2 ^ k) = 0).
  { apply Z.bits_inj'. intros n Hn. rewrite Z.land_spec, Z.bits_0.
    destruct (Z.ltb_spec n k) as [Hlt | Hge].
    - rewrite Z.mul_pow2_bits_low by lia. apply andb_false_r.
    - rewrite <- (Z.mod_small lo (2 ^ k)) by lia.
      rewrite Z.mod_pow2_bits_high by lia. reflexivity. }
  pose proof (Z.add_lor_land lo (hi * 2 ^ k)) as Hadd. lia.
Qed.

(** The three masks, shifts and the two [|] of the return statement, on any
    value: the bytes 0 and 2 change places, the byte 1 stays, and whatever
    is above is dropped. *)
Lemma swap_bytes (color : Z) :
  Z.lor
    (Z.lor (Z.shiftr (Z.land color 16711680) 16) (Z.land color 65280))
    (Z.shiftl (Z.land color 255) 16)
  = color / 65536 mod 256 + (color / 256 mod 256) * 256 + (color mod 256) * 65536.
Proof.
  change 16711680 with (Z.shiftl (Z.ones 8) 16).
  change 65280 with (Z.shiftl (Z.ones 8) 8).
  change 255 with (Z.ones 8).
  rewrite !land_shiftl_mask by lia.
  rewrite Z.shiftr_shiftl_l by lia. change (16 - 16) with 0. rewrite Z.shiftl_0_r.
  rewrite !Z.land_ones by lia. rewrite !Z.shiftr_div_pow2 by lia.
  rewrite !Z.shiftl_mul_pow2 by lia.
  pose proof (Z.mod_pos_bound (color / 2 ^ 16) (2 ^ 8) ltac:(lia)) as H2.
  pose proof (Z.mod_pos_bound (color / 2 ^ 8) (2 ^ 8) ltac:(lia)) as H1.
  pose proof (Z.mod_pos_bound color (2 ^ 8) ltac:(lia)) as H0.
  rewrite (lor_disjoint _ _ 8) by lia.
  rewrite (lor_disjoint _ _ 16) by lia.
  reflexivity.
Qed.

(** The three slices of a string of six bytes, put together again. *)
Lemma slices_rejoin (hex : string) :
  GoStrings.len hex = 6 ->
  String.append (String.append (slice hex 0 2) (slice hex 2 4)) (slice hex 4 6) = hex.
Proof.
  unfold GoStrings.len. intros Hlen.
  do 7 (destruct hex as [|? hex]; [cbn in Hlen; try lia |]); [reflexivity |].
  cbn [String.length] in Hlen. lia.
Qed.

Lemma colorHexToBGR_value (hex : string) :
  GoStrings.len hex = 6 ->
  colorHexToBGR hex =
    let color := Sscanf_x_uint32 hex 0 in
    color / 65536 mod 256 + (color / 256 mod 256) * 256 + (color mod 256) * 65536.
Proof.
  intros Hlen. unfold colorHexToBGR. rewrite Hlen, Z.eqb_refl.
  cbv zeta. rewrite slices_rejoin by exact Hlen. apply swap_bytes.
Qed.

Lemma byte_range (c : ascii) : 0 <= byte c < 256.
Proof.
  unfold byte. pose proof (nat_ascii_bounded c). lia.
Qed.

Lemma hexDigit_Some (c : ascii) (d : Z) :
  hexDigit c = Some d -> 0 <= d <= 15 /\ 48 <= byte c <= 102.
Proof.
  unfold hexDigit. cbv zeta.
  destruct (Z.leb_spec 48 (byte c)), (Z.leb_spec (byte c) 57); cbn [andb];
    try (intros [= <-]; lia);
    destruct (Z.leb_spec 97 (byte c)), (Z.leb_spec (byte c) 102); cbn [andb];
    try (intros [= <-]; lia);
    destruct (Z.leb_spec 65 (byte c)), (Z.leb_spec (byte c) 70); cbn [andb];
    try (intros [= <-]; lia); discriminate.
Qed.

(** A printable ASCII character is no space rune, and starts none. *)
Lemma SkipSpace_printable (c : ascii) (s : string) :
  33 <= byte c < 128 -> SkipSpace (String c s) = Some (String c s).
Proof.
  intros Hc. cbn [SkipSpace].
  destruct (Z.eqb_spec (byte c) 10); [lia |].
  destruct (Z.leb_spec 9 (byte c)), (Z.leb_spec (byte c) 13); try lia; cbn [andb orb];
    (destruct (Z.eqb_spec (byte c) 32); [lia |]);
    (destruct s as [|c2 s2]; [reflexivity |]);
    (destruct (Z.eqb_spec (byte c) 194); [lia |]); cbn [andb];
    (destruct s2 as [|c3 s3]; [reflexivity |]);
    unfold space3;
    (destruct (Z.eqb_spec (byte c) 225); [lia |]);
    (destruct (Z.eqb_spec (byte c) 226); [lia |]);
    (destruct (Z.eqb_spec (byte c) 227); [lia |]); reflexivity.
Qed.

Lemma scanNumber_digits (s : string) :
  Forall (fun d => 0 <= d <= 15) (scanNumber s)
  /\ (length (scanNumber s) <= String.length s)%nat.
Proof.
  induction s as [|c s [IH1 IH2]]; cbn [scanNumber String.length].
  - split; [constructor | cbn; lia].
  - destruct (hexDigit c) as [d|] eqn:Hd.
    + split; [constructor; [apply (hexDigit_Some c d Hd) | exact IH1] | cbn; lia].
    + split; [constructor | cbn; lia].
Qed.

Lemma ParseUint16_bound (digits : list Z) (acc : Z) :
  0 <= acc -> Forall (fun d => 0 <= d <= 15) digits ->
  0 <= fold_left (fun acc d => acc * 16 + d) digits acc
    < (acc + 1) * 16 ^ Z.of_nat (length digits).
Proof.
  revert acc. induction digits as [|d ds IH]; intros acc Hacc Hall.
  - cbn. lia.
  - inversion Hall as [|? ? Hd Hds]; subst. cbn [fold_left length].
    specialize (IH (acc * 16 + d) ltac:(lia) Hds).
    rewrite Nat2Z.inj_succ, Z.pow_succ_r by lia.
    assert (0 < 16 ^ Z.of_nat (length ds)) by (apply Z.pow_pos_nonneg; lia).
    nia.
Qed.

(** What [fmt.Sscanf] stores for a string of six bytes that starts with a
    hexadecimal digit: the number that the digits at its front make. *)
Lemma Sscanf_x_digits (c : ascii) (s : string) (d : Z) :
  hexDigit c = Some d -> GoStrings.len (String c s) = 6 ->
  Sscanf_x_uint32 (String c s) 0 = ParseUint16 (scanNumber (String c s))
  /\ 0 <= ParseUint16 (scanNumber (String c s)) < 2 ^ 24.
Proof.
  intros Hd Hlen.
  destruct (hexDigit_Some c d Hd) as [_ Hc].
  destruct (scanNumber_digits (String c s)) as [Hall Hn].
  assert (Hv : 0 <= ParseUint16 (scanNumber (String c s)) < 2 ^ 24).
  { pose proof (ParseUint16_bound (scanNumber (String c s)) 0 ltac:(lia) Hall) as Hb.
    fold (ParseUint16 (scanNumber (String c s))) in Hb.
    unfold GoStrings.len in Hlen.
    assert (16 ^ Z.of_nat (length (scanNumber (String c s))) <= 16 ^ 6)
      by (apply Z.pow_le_mono_r; lia).
    change (2 ^ 24) with (16 ^ 6). lia. }
  split; [| exact Hv].
  unfold Sscanf_x_uint32. rewrite SkipSpace_printable by lia.
  destruct (scanNumber (String c s)) as [|d0 ds] eqn:Hscan.
  - cbn [scanNumber] in Hscan. rewrite Hd in Hscan. discriminate.
  - cbv zeta. destruct (Z.ltb_spec (ParseUint16 (d0 :: ds)) (2 ^ 32)); [reflexivity | lia].
Qed.

End ColourFacts.

(** X15. The colour of six hexadecimal digits [rrggbb] (either case):
    [0x00bbggrr], the byte of the blue in front and that of the red last,
    as [SetPixelV] takes it. *)
Theorem colorHexToBGR_digits (c1 c2 c3 c4 c5 c6 : ascii) (d1 d2 d3 d4 d5 d6 : Z) :
  GoFmt.hexDigit c1 = Some d1 -> GoFmt.hexDigit c2 = Some d2 ->
  GoFmt.hexDigit c3 = Some d3 -> GoFmt.hexDigit c4 = Some d4 ->
  GoFmt.hexDigit c5 = Some d5 -> GoFmt.hexDigit c6 = Some d6 ->
  colorHexToBGR
    (String c1 (String c2 (String c3 (String c4 (String c5 (String c6 EmptyString))))))
  = (d5 * 16 + d6) * 65536 + (d3 * 16 + d4) * 256 + (d1 * 16 + d2).
Proof.
  intros H1 H2 H3 H4 H5 H6.
  rewrite colorHexToBGR_value by reflexivity. cbv zeta.
  destruct (Sscanf_x_digits c1
              (String c2 (String c3 (String c4 (String c5 (String c6 EmptyString)))))
              d1 H1 eq_refl) as [-> _].
  cbn [GoFmt.scanNumber]. rewrite H1, H2, H3, H4, H5, H6.
  unfold GoFmt.ParseUint16. cbn [fold_left].
  apply hexDigit_Some in H1, H2, H3, H4, H5, H6.
  Z.to_euclidean_division_equations. lia.
Qed.

(** X16. Whatever the string, the result is a colour of 24 bits; and it is 0
    (black) for every string that has not six bytes, ["#ff0000"] and
    ["f00"] among them. *)
Theorem colorHexToBGR_range (hex : string) :
  0 <= colorHexToBGR hex < 2 ^ 24
  /\ (GoStrings.len hex <> 6 -> colorHexToBGR hex = 0).
Proof.
  destruct (Z.eqb_spec (GoStrings.len hex) 6) as [Hlen | Hlen].
  - split; [| intros Hn; now elim Hn].
    rewrite colorHexToBGR_value by exact Hlen. cbv zeta.
    set (color := GoFmt.Sscanf_x_uint32 hex 0).
    pose proof (Z.mod_pos_bound (color / 65536) 256 ltac:(lia)).
    pose proof (Z.mod_pos_bound (color / 256) 256 ltac:(lia)).
    pose proof (Z.mod_pos_bound color 256 ltac:(lia)).
    lia.
  - assert (H0 : colorHexToBGR hex = 0).
    { unfold colorHexToBGR. destruct (Z.eqb_spec (GoStrings.len hex) 6); [lia | reflexivity]. }
    rewrite H0. split; [lia | reflexivity].
Qed.

(** X17. No string of six bytes is refused.  One that starts with a
    hexadecimal digit is read up to its first other character, and what
    follows is ignored: the result is the colour of the number [v < 2^24]
    that the digits at the front make (["ff00zz"] gives that of [0xff00]),
    so that digits that are missing shift the others to the low bytes. *)
Theorem colorHexToBGR_reads_prefix (c : ascii) (s : string) (d : Z) :
  GoFmt.hexDigit c = Some d -> GoStrings.len (String c s) = 6 ->
  let v := GoFmt.ParseUint16 (GoFmt.scanNumber (String c s)) in
  0 <= v < 2 ^ 24
  /\ colorHexToBGR (String c s)
     = v / 65536 + (v / 256 mod 256) * 256 + (v mod 256) * 65536.
Proof.
  intros Hd Hlen. cbv zeta.
  destruct (Sscanf_x_digits c s d Hd Hlen) as [Hscan Hv].
  split; [exact Hv |].
  rewrite colorHexToBGR_value by exact Hlen. cbv zeta. rewrite Hscan.
  rewrite (Z.mod_small (_ / 65536) 256); [reflexivity |].
  split; [apply Z.div_pos; lia | apply Z.div_lt_upper_bound; lia].
Qed.

(** An ASCII character that is no space for [fmt] is not skipped: the
    newline is an error, any other stays at the front. *)
Lemma SkipSpace_no_space (c : ascii) (s : string) :
  GoFmt.byte c < 128 -> GoFmt.byte c ∉ [9; 11; 12; 13; 32] ->
  GoFmt.SkipSpace (String c s) =
    if GoFmt.byte c =? 10 then None else Some (String c s).
Proof.
  intros Hc Hs. rewrite !not_elem_of_cons in Hs.
  destruct Hs as (H9 & H11 & H12 & H13 & H32 & _).
  cbn [GoFmt.SkipSpace].
  destruct (Z.eqb_spec (GoFmt.byte c) 10); [reflexivity |].
  destruct (Z.leb_spec 9 (GoFmt.byte c)), (Z.leb_spec (GoFmt.byte c) 13);
    try lia; cbn [andb orb];
    (destruct (Z.eqb_spec (GoFmt.byte c) 32); [lia |]);
    (destruct s as [|c2 s2]; [reflexivity |]);
    (destruct (Z.eqb_spec (GoFmt.byte c) 194); [lia |]); cbn [andb];
    (destruct s2 as [|c3 s3]; [reflexivity |]);
    unfold GoFmt.space3;
    (destruct (Z.eqb_spec (GoFmt.byte c) 225); [lia |]);
    (destruct (Z.eqb_spec (GoFmt.byte c) 226); [lia |]);
    (destruct (Z.eqb_spec (GoFmt.byte c) 227); [lia |]); reflexivity.
Qed.

(** X18. A string of six bytes whose first byte is an ASCII character
    (below 128) that is neither a hexadecimal digit nor one of the
    white-space bytes that [fmt.Sscanf] skips (tab, vertical tab, form
    feed, carriage return, space) gives 0, ["#ff000"] and a leading newline
    among them: [fmt.Sscanf] fails, its error is dropped, and [color] keeps
    its zero value. *)
Theorem colorHexToBGR_no_digit (c : ascii) (s : string) :
  GoFmt.byte c < 128 -> GoFmt.byte c ∉ [9; 11; 12; 13; 32] ->
  GoFmt.hexDigit c = None ->
  GoStrings.len (String c s) = 6 ->
  colorHexToBGR (String c s) = 0.
Proof.
  intros Hc Hs Hd Hlen.
  rewrite colorHexToBGR_value by exact Hlen. cbv zeta.
  unfold GoFmt.Sscanf_x_uint32. rewrite SkipSpace_no_space by assumption.
  destruct (GoFmt.byte c =? 10); [reflexivity |].
  cbn [GoFmt.scanNumber]. rewrite Hd. reflexivity.
Qed.

(** ** The further properties at concrete inputs *)

Lemma rotateAndCrop_degenerate_witness :
  Dx (Rect (rotateAndCrop dot (f_of_int 320) (-2) 3)) = 2
  /\ Dy (Rect (rotateAndCrop dot (f_of_int 320) (-2) 3)) = 3
  /\ RGBA_At (rotateAndCrop dot (f_of_int 320) (-2) 3) (-1) 1 = color_Transparent.
Proof.
  destruct (rotateAndCrop_degenerate (F := Q) dot (f_of_int 320) (-2) 3
              ltac:(left; lia)) as (_ & HX & HY & Hpx).
  split; [exact HX |]. split; [exact HY |]. apply Hpx.
Defined.

Lemma paint_after_rotateAndCrop_witness :
  (0, 0, 16777215) ∈ paintWatermark (rotateAndCrop dot (f_of_int 0) 1 1) 16777215.
Proof.
  apply (paint_after_rotateAndCrop (F := Q) dot (f_of_int 0) 1 1 16777215
           ltac:(lia) ltac:(lia) 0 0 16777215).
  split; [reflexivity |]. split; [lia |]. split; [lia |].
  split; vm_compute; reflexivity.
Defined.

Lemma watermark_text_witness :
  exists img log,
    synthesize spacing_3_2 8 6 "bob" 20 = Ok (img, log)
    /\ Forall (fun call => fst call = "CompanyName bob     "%string) log
    /\ img = replay (mkContext (f_of_int 72) tt (f_of_int 20)
                       (Bounds (blankCanvas 12)) color_Black)
                    log (blankCanvas 12).
Proof.
  destruct (synthesize spacing_3_2 8 6 "bob" 20) as [[img log]| | |] eqn:Hrun;
    try (vm_compute in Hrun; discriminate).
  exists img, log. split; [reflexivity |].
  destruct (watermark_text spacing_3_2 8 6 "bob" 20 img log Hrun)
    as ([] & spaces & _ & Hspaces & _ & Hall & Himg).
  assert (Hs : spaces = "     "%string)
    by (vm_compute in Hspaces; now injection Hspaces as <-).
  subst spaces. split; [exact Hall |].
  assert (Hcs : canvasSizeOf (F := Q) (GoInt.wrap 8) (GoInt.wrap 6) = 12)
    by (vm_compute; reflexivity).
  cbv zeta in Himg. rewrite Hcs in Himg. exact Himg.
Defined.

Lemma identity_rotation_centres_witness :
  RGBA_At (rotateAndCrop dot (f_of_int 0) 6 6) 2 2 = color_Black
  /\ RGBA_At (rotateAndCrop dot (f_of_int 0) 6 6) 0 0 = color_Transparent.
Proof.
  assert (H0 : repr (f_of_int 0 : Q) 0%Q) by reflexivity.
  assert (H6 : 0 <= 6 <= 2 ^ 50) by lia.
  assert (Hcw : 0 <= Dx (Rect dot) <= 2 ^ 50) by (vm_compute; split; discriminate).
  assert (Hch : 0 <= Dy (Rect dot) <= 2 ^ 50) by (vm_compute; split; discriminate).
  split.
  - rewrite (identity_rotation_centres dot (f_of_int 0) 6 6 H0 H6 H6 Hcw Hch 2 2)
      by lia.
    vm_compute. reflexivity.
  - rewrite (identity_rotation_centres dot (f_of_int 0) 6 6 H0 H6 H6 Hcw Hch 0 0)
      by lia.
    vm_compute. reflexivity.
Defined.

Lemma createWatermarkImage_returns_witness :
  exists n final,
    (forall fuel, (n <= fuel)%nat ->
       createWatermarkImage spacing_3_2 8 6 "bob" fuel = Ok final)
    /\ Rect final = mkRectangle (mkPoint 0 0) (mkPoint 8 6)
    /\ length (Pix final) = 48%nat.
Proof.
  apply (createWatermarkImage_returns spacing_3_2 8 6 "bob");
    [discriminate | vm_compute; discriminate | vm_compute; split; discriminate
    | vm_compute; split; discriminate | lia | lia | lia].
Defined.

Lemma skew_zero_draws_a_grid_witness :
  exists n img,
    (forall fuel, (n <= fuel)%nat ->
       synthesize spacing_3_2 8 6 "bob" fuel =
         Ok (img,
             List.map
               (fun a => ("CompanyName bob     "%string, freetype_Pt (fst a) (snd a)))
               (tileAnchors [0; 4; 8] [0; 2; 4; 6; 8; 10])))
    /\ RGBA_At img 4 2 = color_Black
    /\ RGBA_At img 1 1 = color_Transparent.
Proof.
  destruct (skew_zero_draws_a_grid spacing_3_2 8 6 "bob")
    as (n & [] & _ & Hrun);
    [reflexivity | discriminate | vm_compute; discriminate
    | vm_compute; split; discriminate | vm_compute; split; discriminate
    | lia | lia | lia |].
  cbv zeta in Hrun. eexists n, _. split; [exact Hrun |].
  vm_compute. split; reflexivity.
Defined.

Lemma colorHexToBGR_digits_witness : colorHexToBGR "ff8000" = 33023.
Proof.
  apply (colorHexToBGR_digits "f" "f" "8" "0" "0" "0" 15 15 8 0 0 0); reflexivity.
Defined.

Lemma colorHexToBGR_reads_prefix_witness :
  GoFmt.ParseUint16 (GoFmt.scanNumber "ff00zz") = 65280
  /\ colorHexToBGR "ff00zz" = 65280.
Proof.
  destruct (colorHexToBGR_reads_prefix "f" "f00zz" 15 eq_refl eq_refl) as [_ H].
  split; [reflexivity |]. rewrite H. reflexivity.
Defined.

Lemma colorHexToBGR_no_digit_witness :
  colorHexToBGR "#ff000" = 0 /\ colorHexToBGR "gf0000" = 0.
Proof.
  split.
  - apply (colorHexToBGR_no_digit "#" "ff000");
      [reflexivity
      | rewrite !not_elem_of_cons; repeat split;
        try (vm_compute; discriminate); apply not_elem_of_nil
      | reflexivity ..].
  - apply (colorHexToBGR_no_digit "g" "f0000");
      [reflexivity
      | rewrite !not_elem_of_cons; repeat split;
        try (vm_compute; discriminate); apply not_elem_of_nil
      | reflexivity ..].
Defined.
